(** * builddocs.py: the documentation build script of the collections package

    A shallow embedding of [util/builddocs.py] and the properties of its
    four stages: the walk that mirrors the source tree and collects the
    source files, the export of each source file followed by the call of
    the documentation compiler, the conversion of the markup files, and
    the rewriting of the generated HTML pages.

    Python text ([str]) is a sequence of Unicode code points.  The file
    system is the tree below the working directory the script changes to
    on start-up, on a POSIX system and without symbolic links; files hold
    text.  The external tools are a parameter of the script: any function
    from the argument vector and the tree to an exit status and a tree. *)

From Stdlib Require Import List NArith ZArith Bool Arith Lia String Ascii.
Import ListNotations.

(** ** Text *)

Module Text.

(** A Python [str]: a list of code points. *)
Definition char := N.
Definition str := list char.

Definition of_string (s : string) : str :=
  map N_of_ascii (list_ascii_of_string s).

Definition LF : char := 10%N.
Definition CR : char := 13%N.
Definition DQUOTE : char := 34%N.
Definition SLASH : char := 47%N.
Definition HASH : char := 35%N.

Fixpoint str_eqb (a b : str) : bool :=
  match a, b with
  | [], [] => true
  | x :: a', y :: b' => N.eqb x y && str_eqb a' b'
  | _, _ => false
  end.

(** The line boundaries of [str.splitlines]: LF, CR, VT, FF, FS, GS, RS,
    NEL, LINE SEPARATOR and PARAGRAPH SEPARATOR (CR LF counts once). *)
Definition is_linebreak (c : char) : bool :=
  existsb (N.eqb c) [10; 13; 11; 12; 28; 29; 30; 133; 8232; 8233]%N.

(** [data.splitlines()]: [cur] is the line being scanned.  A line is
    closed at every boundary; what follows the last boundary is a line
    only when it is not empty. *)
Fixpoint splitlines_from (cur : str) (s : str) : list str :=
  match s with
  | [] => match cur with [] => [] | _ => [cur] end
  | c :: rest =>
      if is_linebreak c then
        cur :: match rest with
               | c2 :: rest' =>
                   if N.eqb c CR && N.eqb c2 LF
                   then splitlines_from [] rest'
                   else splitlines_from [] rest
               | [] => []
               end
      else splitlines_from (cur ++ [c]) rest
  end.

Definition splitlines (s : str) : list str := splitlines_from [] s.

(** [sep.join(l)] *)
Fixpoint join (sep : str) (l : list str) : str :=
  match l with
  | [] => []
  | [x] => x
  | x :: xs => x ++ sep ++ join sep xs
  end.

(** [s.endswith(suffix)] and [sub in s] *)
Fixpoint startswith (s pre : str) {struct pre} : bool :=
  match pre, s with
  | [], _ => true
  | p :: pre', c :: s' => N.eqb c p && startswith s' pre'
  | _ :: _, [] => false
  end.

Definition endswith (s suffix : str) : bool :=
  startswith (rev s) (rev suffix).

Fixpoint contains (s sub : str) : bool :=
  startswith s sub ||
  match s with
  | [] => false
  | _ :: s' => contains s' sub
  end.

(** The text without its final LF, when it ends with one. *)
Fixpoint strip_final_newline (s : str) : str :=
  match s with
  | [] => []
  | [c] => if N.eqb c LF then [] else [c]
  | c :: s' => c :: strip_final_newline s'
  end.

End Text.
Import Text.

(** ** Stage 4: the HTML post-processor *)

Module Html.

(** The module constant [STYLE]: a triple-quoted literal, so it starts
    and ends with a newline. *)
Definition STYLE : str :=
  [LF] ++ of_string "<link href=" ++ [DQUOTE]
  ++ of_string "https://maxcdn.bootstrapcdn.com/bootstrap/3.3.6/css/bootstrap.min.css"
  ++ [DQUOTE] ++ of_string " rel=stylesheet>" ++ [LF].

(** The two literals the loop compares each line with. *)
Definition STYLE_OPEN : str :=
  of_string "<style type=" ++ [DQUOTE] ++ of_string "text/css" ++ [DQUOTE]
  ++ of_string " >".
Definition STYLE_CLOSE : str := of_string "</style>".

(** The loop state: the list [out] and the flag [css]. *)
Record state := mkState { out : list str; css : bool }.

(** One iteration of [for line in data.splitlines()]: three successive
    [if] statements, none of them an [elif]. *)
Definition step (st : state) (line : str) : state :=
  let st1 :=
    if str_eqb line STYLE_OPEN
    then mkState (out st ++ [STYLE]) true
    else st in
  let st2 :=
    if str_eqb line STYLE_CLOSE
    then mkState (out st1) false
    else st1 in
  if negb (css st2)
  then mkState (out st2 ++ [line]) (css st2)
  else st2.

Definition run (st : state) (lines : list str) : state :=
  fold_left step lines st.

Definition init : state := mkState [] false.

Definition postprocess_lines (lines : list str) : list str :=
  out (run init lines).

Definition postprocess_html (data : str) : str :=
  join [LF] (postprocess_lines (splitlines data)).

End Html.

(** ** The operating system: paths, the file tree, processes *)

Module Os.

(** *** Paths ([posixpath]) *)

(** [os.path.join(a, b)] *)
Definition path_join (a b : str) : str :=
  if startswith b [SLASH] then b
  else if match a with [] => true | _ => endswith a [SLASH] end then a ++ b
  else a ++ [SLASH] ++ b.

(** A name an entry of a directory can have: not empty, without a slash. *)
Definition valid_name (n : str) : bool :=
  match n with
  | [] => false
  | _ => negb (existsb (N.eqb SLASH) n)
  end.

(** The components of a relative path, as the kernel resolves it: the
    pieces between slashes, empty pieces skipped.  (The script builds no
    path with a [.] or [..] component.) *)
Definition path := list str.

Fixpoint components_from (cur : str) (s : str) : path :=
  match s with
  | [] => match cur with [] => [] | _ => [cur] end
  | c :: rest =>
      if N.eqb c SLASH then
        match cur with
        | [] => components_from [] rest
        | _ => cur :: components_from [] rest
        end
      else components_from (cur ++ [c]) rest
  end.

Definition components (s : str) : path := components_from [] s.

Fixpoint path_eqb (p q : path) : bool :=
  match p, q with
  | [], [] => true
  | a :: p', b :: q' => str_eqb a b && path_eqb p' q'
  | _, _ => false
  end.

Definition parent (p : path) : path := removelast p.

(** *** The file tree below the working directory

    An entry is a regular file with its text or a directory; the tree is
    the list of its entries, keyed by their components, in the order a
    directory scan enumerates them.  Files hold text: the codec of
    [open] in text mode is left out. *)
Inductive node : Type :=
| File (content : str)
| Dir.

Definition fs := list (path * node).

Definition is_dir (n : node) : bool :=
  match n with Dir => true | File _ => false end.

Fixpoint lookup (t : fs) (p : path) : option node :=
  match t with
  | [] => None
  | (q, n) :: t' => if path_eqb q p then Some n else lookup t' p
  end.

(** The working directory itself is a directory. *)
Definition node_at (t : fs) (p : path) : option node :=
  match p with
  | [] => Some Dir
  | _ => lookup t p
  end.

(** What a path string names; the empty string names nothing. *)
Definition resolve (t : fs) (s : str) : option node :=
  match s with
  | [] => None
  | _ => node_at t (components s)
  end.

(** The entries of directory [q]: name and node. *)
Definition listdir (t : fs) (q : path) : list (str * node) :=
  flat_map (fun e : path * node =>
              match fst e with
              | [] => []
              | _ => if path_eqb (parent (fst e)) q && valid_name (last (fst e) [])
                     then [(last (fst e) [], snd e)]
                     else []
              end) t.

(** The text of file [p] becomes [c]; the file is created when absent. *)
Fixpoint set_file (t : fs) (p : path) (c : str) : fs :=
  match t with
  | [] => [(p, File c)]
  | (q, n) :: t' =>
      if path_eqb q p then (q, File c) :: t' else (q, n) :: set_file t' p c
  end.

(** Reading in text mode with the default [newline=None]: CR LF and a
    lone CR arrive as LF. *)
Fixpoint universal_newlines (s : str) : str :=
  match s with
  | [] => []
  | c :: rest =>
      if N.eqb c CR then
        LF :: match rest with
              | c2 :: rest' =>
                  if N.eqb c2 LF then universal_newlines rest'
                  else universal_newlines rest
              | [] => []
              end
      else c :: universal_newlines rest
  end.

(** *** Effects

    The state of a run is the file tree and, as a ghost, the log of what
    the script did to the outside world.  A computation returns a value
    or raises an exception; the state survives either way. *)
Inductive event : Type :=
| EMkdir (p : str)
| EWrite (p : str)
| ECall (argv : list str).

Record world : Type := mkWorld { tree : fs; log : list event }.

Definition init_world (t : fs) : world := mkWorld t [].

(** The exceptions of the calls below.  [FuelExhausted] is not one of
    Python's: it marks a walk cut short by the bound of the model. *)
Inductive exn : Type :=
| FileNotFoundError
| FileExistsError
| NotADirectoryError
| IsADirectoryError
| CalledProcessError (returncode : Z)
| FuelExhausted.

Inductive result (A : Type) : Type :=
| Ok (a : A)
| Raise (e : exn).
Arguments Ok {A} a.
Arguments Raise {A} e.

Definition M (A : Type) : Type := world -> result A * world.

Definition ret {A} (a : A) : M A := fun w => (Ok a, w).

Definition raise {A} (e : exn) : M A := fun w => (Raise e, w).

Definition bind {A B} (m : M A) (k : A -> M B) : M B :=
  fun w =>
    match m w with
    | (Ok a, w') => k a w'
    | (Raise e, w') => (Raise e, w')
    end.

Declare Scope os_scope.
Delimit Scope os_scope with os.
Notation "x <- m ;; k" := (bind m (fun x => k))
  (at level 61, m at next level, right associativity) : os_scope.
Notation "m ;; k" := (bind m (fun _ => k))
  (at level 61, right associativity) : os_scope.
Local Open Scope os_scope.

(** [for x in l: acc = f(acc, x)], stopping at the first exception. *)
Fixpoint foldM {A B} (f : A -> B -> M A) (l : list B) (acc : A) : M A :=
  match l with
  | [] => ret acc
  | x :: l' => acc' <- f acc x ;; foldM f l' acc'
  end.

Definition for_each {B} (l : list B) (f : B -> M unit) : M unit :=
  foldM (fun _ x => f x) l tt.

(** The error of a missing path: a regular file in the place of its
    directory gives [NotADirectoryError]. *)
Definition missing (t : fs) (s : str) : exn :=
  match node_at t (parent (components s)) with
  | Some (File _) => NotADirectoryError
  | _ => FileNotFoundError
  end.

(** [os.path.exists(s)] *)
Definition path_exists (s : str) : M bool :=
  fun w => (Ok (match resolve (tree w) s with Some _ => true | None => false end), w).

(** [os.mkdir(s)] *)
Definition mkdir (s : str) : M unit :=
  fun w =>
    match resolve (tree w) s with
    | Some _ => (Raise FileExistsError, w)
    | None =>
        match s, node_at (tree w) (parent (components s)) with
        | _ :: _, Some Dir =>
            (Ok tt, mkWorld (tree w ++ [(components s, Dir)]) (log w ++ [EMkdir s]))
        | _, _ => (Raise (missing (tree w) s), w)
        end
    end.

(** [open(s, 'w')]: in a directory that exists, the file is created, or
    emptied when it exists. *)
Definition open_w (s : str) : M unit :=
  fun w =>
    match s, node_at (tree w) (parent (components s)) with
    | _ :: _, Some Dir =>
        match resolve (tree w) s with
        | Some Dir => (Raise IsADirectoryError, w)
        | _ => (Ok tt, mkWorld (set_file (tree w) (components s) []) (log w))
        end
    | _, _ => (Raise (missing (tree w) s), w)
    end.

(** [f.write(data)] and the close at the end of the [with] block, on
    the file opened at [s]; on a POSIX system the text is written as it
    is. *)
Definition write_text (s : str) (data : str) : M unit :=
  fun w =>
    (Ok tt, mkWorld (set_file (tree w) (components s) data) (log w ++ [EWrite s])).

(** [open(s, 'r').read()] *)
Definition read_text (s : str) : M str :=
  fun w =>
    match resolve (tree w) s with
    | Some (File c) => (Ok (universal_newlines c), w)
    | Some Dir => (Raise IsADirectoryError, w)
    | None => (Raise (missing (tree w) s), w)
    end.

(** What [os.scandir] gives [os.walk]: the names of the sub-directories
    and of the other entries; nothing when [top] is not a directory. *)
Definition scandir (t : fs) (top : str) : option (list str * list str) :=
  match resolve t top with
  | Some Dir =>
      let es := listdir t (components top) in
      Some (map fst (filter (fun e => is_dir (snd e)) es),
            map fst (filter (fun e => negb (is_dir (snd e))) es))
  | _ => None
  end.

(** [for root, dirs, files in os.walk(top): acc = body(acc, ...)].
    The walk is a generator: a directory is scanned when the walk reaches
    it, in the state the loop body has left, and a directory that cannot
    be scanned is skipped without an error ([onerror] is [None]).  The
    body may add directories without end, hence the fuel: one unit per
    level below [top]. *)
Fixpoint walk_for {A} (fuel : nat) (top : str)
    (body : A -> str * list str * list str -> M A) (acc : A) : M A :=
  match fuel with
  | O => raise FuelExhausted
  | S fuel' =>
      fun w =>
        match scandir (tree w) top with
        | None => (Ok acc, w)
        | Some (dirs, files) =>
            (acc' <- body acc (top, dirs, files) ;;
             foldM (fun a d => walk_for fuel' (path_join top d) body a) dirs acc') w
        end
  end.

Section Process.
(** The programs on the execution path, which the script takes to be
    there: from the argument vector and the file tree to the exit
    status and the tree they leave. *)
Variable run_process : list str -> fs -> Z * fs.

(** [subprocess.check_call(argv)] *)
Definition check_call (argv : list str) : M unit :=
  fun w =>
    let '(code, t') := run_process argv (tree w) in
    let w' := mkWorld t' (log w ++ [ECall argv]) in
    if Z.eqb code 0 then (Ok tt, w') else (Raise (CalledProcessError code), w').
End Process.

End Os.

(** ** The script *)

Module Builddocs.
Import Os.
Local Open Scope os_scope.

Section Script.
Variable run_process : list str -> fs -> Z * fs.

(** [if not os.path.exists(d): os.mkdir(d)] *)
Definition ensure_dir (d : str) : M unit :=
  e <- path_exists d ;;
  if negb e then mkdir d else ret tt.

(** The inner loop of the first walk: [for name in files]. *)
Definition collect_names (root : str) (files : list str)
    (nim_files : list str) : list str :=
  fold_left
    (fun nim_files name =>
       let path := path_join root name in
       if endswith name (of_string ".nim") then nim_files ++ [path]
       else nim_files)
    files nim_files.

(** The body of [for root, dirs, files in os.walk("collections")]. *)
Definition collect_body (nim_files : list str)
    (entry : str * list str * list str) : M (list str) :=
  let '(root, dirs, files) := entry in
  let new_dir := of_string "doc/api/" ++ root in
  ensure_dir new_dir ;;
  ret (collect_names root files nim_files).

(** Stage 1, from [nim_files = []] to the end of the first walk. *)
Definition collector (fuel : nat) : M (list str) :=
  ensure_dir (of_string "doc/api") ;;
  walk_for fuel (of_string "collections") collect_body [].

Definition DOC_SEE_SRC_URL : str :=
  of_string "--docSeeSrcUrl:https://github.com/zielmicha/reactor.nim/tree/master".

Definition nim_doc_argv (new_file : str) : list str :=
  [of_string "nim"; of_string "doc"; DOC_SEE_SRC_URL; new_file].

Definition nim_rst2html_argv (path : str) : list str :=
  [of_string "nim"; of_string "rst2html"; path].

(** [with open(new_file, 'w') as output:
       output.write(open(path, 'r').read())] *)
Definition export (path : str) : M unit :=
  let new_file := of_string "doc/api/" ++ path in
  open_w new_file ;;
  data <- read_text path ;;
  write_text new_file data.

(** The body of [for path in nim_files]. *)
Definition export_and_doc (path : str) : M unit :=
  let new_file := of_string "doc/api/" ++ path in
  export path ;;
  check_call run_process (nim_doc_argv new_file).

(** The body of the second walk, over ["doc/"]. *)
Definition rst_body (_ : unit) (entry : str * list str * list str) : M unit :=
  let '(root, dirs, files) := entry in
  for_each files
    (fun name =>
       let path := path_join root name in
       if endswith path (of_string ".rst") && negb (contains path [HASH])
       then check_call run_process (nim_rst2html_argv path)
       else ret tt).

(** The body of the third walk, over ["doc/"]. *)
Definition html_body (_ : unit) (entry : str * list str * list str) : M unit :=
  let '(root, dirs, files) := entry in
  for_each files
    (fun name =>
       let path := path_join root name in
       if endswith path (of_string ".html")
          && negb (contains path (of_string "doc/api/"))
       then
         data <- read_text path ;;
         let html := Html.postprocess_html data in
         open_w path ;;
         write_text path html
       else ret tt).

(** The whole script, after its [os.chdir]: the tree of the model is
    the one below the directory the script changes to. *)
Definition main (fuel : nat) : M unit :=
  nim_files <- collector fuel ;;
  for_each nim_files export_and_doc ;;
  walk_for fuel (of_string "doc/") rst_body tt ;;
  walk_for fuel (of_string "doc/") html_body tt.

End Script.

End Builddocs.

(** ** The vocabulary of the properties: texts *)

Module TextSpec.
Import Html.

(** A text with no line boundary at all, and a text whose only line
    boundary is LF. *)
Definition break_free (s : str) : Prop :=
  Forall (fun c => is_linebreak c = false) s.
Definition only_lf (s : str) : Prop :=
  Forall (fun c => is_linebreak c = true -> c = LF) s.

(** The number of opening-tag lines of a list. *)
Definition count_open (lines : list str) : nat :=
  List.length (filter (fun l => str_eqb l STYLE_OPEN) lines).

(** The snippet is the link element between two newlines. *)
Definition STYLE_LINK : str := removelast (tl STYLE).

(** An element of [out] is a line of the input other than the opening
    tag, or the snippet. *)
Definition emitted (e : str) : Prop :=
  (break_free e /\ e <> STYLE_OPEN) \/ e = STYLE.

(** The scenario of the specification: a style section of one body line
    followed by a paragraph. *)
Definition scenario_html : str :=
  join [LF] [STYLE_OPEN; of_string "body{color:red}"; STYLE_CLOSE;
             of_string "<p>hi</p>"].

(** A page with one well-formed style section inside its head. *)
Definition page_html : str :=
  join [LF] [of_string "<head>"; STYLE_OPEN; of_string "h1{}"; of_string "h2{}";
             STYLE_CLOSE; of_string "</head>"; of_string "<p>text</p>"] ++ [LF].

(** Two lines separated by a form feed, a line boundary of [splitlines]. *)
Definition form_feed_html : str := of_string "a" ++ [12%N] ++ of_string "b".

(** A paragraph followed by an empty line. *)
Definition blank_tail_html : str := of_string "<p>hi</p>" ++ [LF; LF].

(** A page whose style section is never closed. *)
Definition unclosed_html : str :=
  join [LF] [of_string "<p>a</p>"; STYLE_OPEN; of_string "body{}";
             of_string "<p>lost</p>"].

End TextSpec.

(** ** The vocabulary of the properties: runs *)

Module RunSpec.
Import Os Builddocs.

(** *** Trees *)

(** The mirror of a path below the output root. *)
Definition mirror (q : path) : path :=
  of_string "doc" :: of_string "api" :: q.

(** The scanned root, as a path. *)
Definition source_root : path := [of_string "collections"].

(** Paths of the scanned tree: those that start with its root. *)
Definition in_source (p : path) : Prop :=
  exists r, p = of_string "collections" :: r.

(** [reach t q d]: [d] is a directory of tree [t] at or below [q], and
    so is every path between the two. *)
Inductive reach (t : fs) : path -> path -> Prop :=
| reach_here q : lookup t q = Some Dir -> reach t q q
| reach_step q n d :
    lookup t q = Some Dir -> valid_name n = true ->
    reach t (q ++ [n]) d -> reach t q d.

(** The length of the longest path of a tree. *)
Definition depth (t : fs) : nat :=
  list_max (map (fun e => List.length (fst e)) t).

(** The first loop only adds mirrored directories at the end. *)
Definition mirror_entry (e : path * node) : Prop :=
  exists q, e = (mirror q, Dir).

Definition grows (t t' : fs) : Prop :=
  exists added, t' = t ++ added /\ Forall mirror_entry added.

(** Every directory of the source tree [t0] at or below [q] has
    something at its mirrored path. *)
Definition mirrored_below (t0 : fs) (q : path) (w : world) : Prop :=
  forall d, reach t0 q d -> lookup (tree w) (mirror d) <> None.

(** No regular file sits where the mirror of a directory at or below
    [q] has to be. *)
Definition unobstructed (t0 : fs) (q : path) : Prop :=
  forall d, reach t0 q d ->
    lookup t0 (mirror d) = None \/ lookup t0 (mirror d) = Some Dir.

(** A first run: nothing below the output root yet. *)
Definition below_output_root (p : path) : bool :=
  match p with
  | a :: b :: _ => str_eqb a (of_string "doc") && str_eqb b (of_string "api")
  | _ => false
  end.

Definition fresh_output (t : fs) : bool :=
  forallb (fun e => negb (below_output_root (fst e))) t.

(** The output root [doc/api] is a directory, or is absent and can be
    made in the directory [doc]. *)
Definition output_root_ready (t : fs) : Prop :=
  lookup t (mirror []) = Some Dir
  \/ (lookup t (mirror []) = None /\ lookup t [of_string "doc"] = Some Dir).

(** *** Logs *)

(** Whatever the state and the outcome, [m] appends to the log only
    events that satisfy [P]. *)
Definition emits {A} (P : event -> Prop) (m : M A) : Prop :=
  forall w, exists evs, log (snd (m w)) = log w ++ evs /\ Forall P evs.

(** [m] appends events of [P] and then events of [Q]. *)
Definition emits_then {A} (P Q : event -> Prop) (m : M A) : Prop :=
  forall w, exists e1 e2,
    log (snd (m w)) = log w ++ e1 ++ e2 /\ Forall P e1 /\ Forall Q e2.

Definition is_mkdir (e : event) : Prop := exists p, e = EMkdir p.

(** A write of an exported copy, a call of the documentation compiler,
    a call of the markup converter. *)
Definition is_export (e : event) : Prop :=
  exists path, e = EWrite (of_string "doc/api/" ++ path).
Definition is_doc_call (e : event) : Prop :=
  exists new_file, e = ECall (nim_doc_argv new_file).
Definition is_rst_call (e : event) : Prop :=
  exists path, e = ECall (nim_rst2html_argv path).

(** A markup file: below the output tree, with the markup extension and
    without the exclusion marker. *)
Definition markup_path (p : str) : Prop :=
  startswith p (of_string "doc/") = true
  /\ endswith p (of_string ".rst") = true
  /\ contains p [HASH] = false.

(** Every event of the first kind comes before every event of the
    second kind. *)
Definition ordered_before (P Q : event -> Prop) (l : list event) : Prop :=
  forall i j a b,
    nth_error l i = Some a -> nth_error l j = Some b -> P a -> Q b -> i < j.

(** The events of one iteration of the loop over [nim_files]. *)
Definition export_events (path : str) : list event :=
  [EWrite (of_string "doc/api/" ++ path);
   ECall (nim_doc_argv (of_string "doc/api/" ++ path))].

(** What the second and third walks append. *)
Definition late_event (e : event) : Prop :=
  ~ is_doc_call e /\ forall p, e = ECall (nim_rst2html_argv p) -> markup_path p.

Definition below_doc (top : str) : Prop :=
  startswith top (of_string "doc/") = true.

(** *** Sample trees and tools *)

(** A tool that exits with status 0 and leaves the tree as it is. *)
Definition quiet_tool (argv : list str) (t : fs) : Z * fs := (0%Z, t).

Definition p_collections : str := of_string "collections".
Definition p_doc : str := of_string "doc".

(** A checkout without the scanned root. *)
Definition tree_without_root : fs := [([p_doc], Dir)].

(** A source tree with empty directories, before the first run. *)
Definition tree_with_empty_dirs : fs :=
  [([p_collections], Dir);
   ([p_collections; of_string "a.nim"], File (of_string "proc a"));
   ([p_collections; of_string "empty"], Dir);
   ([p_collections; of_string "sub"], Dir);
   ([p_collections; of_string "sub"; of_string "deep"], Dir);
   ([p_doc], Dir)].

(** Two source files and one markup file, before the first run. *)
Definition tree_two_files : fs :=
  [([p_collections], Dir);
   ([p_collections; of_string "a.nim"], File (of_string "A"));
   ([p_collections; of_string "b.nim"], File (of_string "B"));
   ([p_doc], Dir);
   ([p_doc; of_string "index.rst"], File (of_string "Index"))].

(** A source file with CR LF line ends, the output tree being there. *)
Definition tree_crlf : fs :=
  [([p_collections], Dir);
   ([p_collections; of_string "a.nim"],
    File (of_string "x" ++ [CR; LF] ++ of_string "y"));
   ([p_doc], Dir);
   ([p_doc; of_string "api"], Dir);
   ([p_doc; of_string "api"; p_collections], Dir)].

(** A hand-written page next to the generated ones. *)
Definition tree_static_html : fs :=
  [([p_collections], Dir);
   ([p_collections; of_string "a.nim"], File (of_string "A"));
   ([p_doc], Dir);
   ([p_doc; of_string "index.html"], File (of_string "<p>hi</p>" ++ [LF; LF]))].

(** A second run: part of the output tree is there already. *)
Definition tree_rerun : fs :=
  [([p_collections], Dir);
   ([p_collections; of_string "sub"], Dir);
   ([p_collections; of_string "sub"; of_string "b.nim"], File (of_string "B"));
   ([p_doc], Dir);
   ([p_doc; of_string "api"], Dir);
   ([p_doc; of_string "api"; p_collections], Dir)].

(** A regular file where the mirror of the scanned root has to be. *)
Definition tree_blocked : fs :=
  [([p_collections], Dir);
   ([p_doc], Dir);
   ([p_doc; of_string "api"], Dir);
   ([p_doc; of_string "api"; p_collections], File (of_string "x"))].

End RunSpec.

(** ** More vocabulary: the scanner, the walk, the stages *)

Module StageSpec.
Import Html Os Builddocs TextSpec RunSpec.

(** The number of snippets in a list of output elements. *)
Definition count_style (elems : list str) : nat :=
  List.length (filter (fun e => str_eqb e STYLE) elems).

(** [m] moves the tree along [R], whatever the state and the outcome. *)
Definition steps {A} (R : fs -> fs -> Prop) (m : M A) : Prop :=
  forall w, R (tree w) (tree (snd (m w))).

(** [for x in l: acc = f(acc, x)] for a step that may run out of fuel. *)
Fixpoint fold_opt {A B} (f : A -> B -> option A) (l : list B) (acc : A)
    : option A :=
  match l with
  | [] => Some acc
  | x :: l' =>
      match f acc x with
      | Some acc' => fold_opt f l' acc'
      | None => None
      end
  end.

(** The list the first walk builds, as a function of the tree alone;
    [None] when the fuel does not reach the bottom of the tree. *)
Fixpoint walk_names (fuel : nat) (t : fs) (top : str) (acc : list str)
    : option (list str) :=
  match fuel with
  | O => None
  | S fuel' =>
      match scandir t top with
      | None => Some acc
      | Some (dirs, files) =>
          fold_opt (fun a d => walk_names fuel' t (path_join top d) a)
                   dirs (collect_names top files acc)
      end
  end.

(** [p] is the path of an entry of the source tree that is not a
    directory, has a name ending in [.nim] and lies in a directory the
    walk reaches. *)
Definition nim_source (t : fs) (p : str) : Prop :=
  startswith p (of_string "collections") = true
  /\ endswith p (of_string ".nim") = true
  /\ exists q name x,
       reach t source_root q /\ In (q ++ [name], x) t /\ is_dir x = false
       /\ valid_name name = true /\ components p = q ++ [name].

(** Every entry of tree [t] that is not a directory, has a name ending
    in [.nim] and lies in a directory at or below [q] has its path in
    [acc]. *)
Definition collected_below (t : fs) (q : path) (acc : list str) : Prop :=
  forall d name x,
    reach t q d -> In (d ++ [name], x) t -> is_dir x = false ->
    valid_name name = true -> endswith name (of_string ".nim") = true ->
    exists p, In p acc /\ components p = d ++ [name].

(** A write of the last stage: to a path outside the api tree. *)
Definition is_rewrite (e : event) : Prop :=
  exists p, e = EWrite p /\ contains p (of_string "doc/api/") = false.

(** The paths the script itself may change, by their components: the
    output root [doc/api] and what lies below it, and an entry below
    [doc] whose name ends with [.html]. *)
Definition page_pathb (q : path) : bool :=
  match q with
  | a :: _ :: _ =>
      str_eqb a (of_string "doc") && endswith (last q []) (of_string ".html")
  | _ => false
  end.

Definition output_pathb (q : path) : bool :=
  below_output_root q || page_pathb q.

(** What the script itself may do to the outside world: make the
    directory [doc/api] or the mirror of a path of the source tree,
    write a copy with the extension [.nim] at the mirror of a path of
    the source tree, rewrite an HTML page below [doc/] and outside the
    api tree, call the documentation compiler on such a copy, call the
    converter on a markup file. *)
Definition api_path (p : str) : Prop :=
  exists q, (q = [] \/ in_source q) /\ components p = mirror q.

Definition copy_path (p : str) : Prop :=
  (exists q, in_source q /\ components p = mirror q)
  /\ endswith p (of_string ".nim") = true.

Definition page_path (p : str) : Prop :=
  startswith p (of_string "doc/") = true
  /\ endswith p (of_string ".html") = true
  /\ contains p (of_string "doc/api/") = false
  /\ page_pathb (components p) = true.

Definition allowed (e : event) : Prop :=
  match e with
  | EMkdir p => api_path p
  | EWrite p => copy_path p \/ page_path p
  | ECall argv =>
      (exists f, argv = nim_doc_argv f /\ copy_path f)
      \/ (exists p, argv = nim_rst2html_argv p /\ markup_path p)
  end.

(** The entries outside those paths are the same in both trees, and in
    the same order. *)
Definition kept_outside (t t' : fs) : Prop :=
  filter (fun e => negb (output_pathb (fst e))) t'
  = filter (fun e => negb (output_pathb (fst e))) t.

(** Between two trees nothing appears and nothing goes away: a path
    names what it named before, or a regular file where a regular file
    was. *)
Definition only_contents (t t' : fs) : Prop :=
  forall q,
    lookup t' q = lookup t q
    \/ exists c c', lookup t q = Some (File c) /\ lookup t' q = Some (File c').

(** *** Sample inputs *)

(** Two style sections, one after the other. *)
Definition two_blocks_lines : list str :=
  [of_string "<head>"; STYLE_OPEN; of_string "a{}"; STYLE_CLOSE].

Definition more_lines : list str :=
  [STYLE_OPEN; of_string "b{}"; STYLE_CLOSE; of_string "</head>"].

(** A run whose documentation compiler fails. *)
Definition failing_doc_tool (argv : list str) (t : fs) : Z * fs :=
  match argv with
  | _ :: cmd :: _ => if str_eqb cmd (of_string "doc") then (1%Z, t) else (0%Z, t)
  | _ => (0%Z, t)
  end.

(** A source tree whose file is gone when the export starts: the output
    directory is there, with an older copy. *)
Definition tree_stale_copy : fs :=
  [([p_collections], Dir);
   ([p_doc], Dir);
   ([p_doc; of_string "api"], Dir);
   ([p_doc; of_string "api"; p_collections], Dir);
   ([p_doc; of_string "api"; p_collections; of_string "a.nim"],
    File (of_string "old"))].

(** A hand-written page with a style section. *)
Definition tree_page : fs :=
  [([p_doc], Dir);
   ([p_doc; of_string "index.html"],
    File (of_string "<p>a</p>" ++ [CR; LF] ++ of_string "<p>b</p>" ++ [LF]))].

End StageSpec.

(** ** Facts about text *)

Module TextFacts.
Import TextSpec.

Lemma str_eqb_eq (a b : str) : str_eqb a b = true <-> a = b.
Proof.
  revert b; induction a as [|x a IH]; intros [|y b]; simpl;
    try (split; [discriminate | congruence]); try tauto.
  rewrite andb_true_iff, N.eqb_eq, IH. split.
  - intros [-> ->]; reflexivity.
  - intros E; injection E; auto.
Qed.

Lemma str_eqb_refl (a : str) : str_eqb a a = true.
Proof. apply str_eqb_eq; reflexivity. Qed.

Lemma str_eqb_neq (a b : str) : str_eqb a b = false <-> a <> b.
Proof.
  rewrite <- str_eqb_eq. destruct (str_eqb a b); split; congruence.
Qed.

Lemma break_free_only_lf (s : str) : break_free s -> only_lf s.
Proof.
  unfold break_free, only_lf. apply Forall_impl. intros c H; rewrite H; discriminate.
Qed.

Lemma only_lf_forallb (s : str) :
  forallb (fun c => negb (is_linebreak c) || N.eqb c LF) s = true -> only_lf s.
Proof.
  intros H. apply Forall_forall. intros c Hc Hb.
  rewrite forallb_forall in H. apply H in Hc. rewrite Hb in Hc.
  now apply N.eqb_eq.
Qed.

Lemma only_lf_app (a b : str) : only_lf a -> only_lf b -> only_lf (a ++ b).
Proof. unfold only_lf; intros; apply Forall_app; auto. Qed.

Lemma splitlines_from_LF (cur s : str) :
  splitlines_from cur (LF :: s) = cur :: splitlines s.
Proof. destruct s; reflexivity. Qed.

Lemma splitlines_from_app (e : str) :
  break_free e ->
  forall cur s, splitlines_from cur (e ++ s) = splitlines_from (cur ++ e) s.
Proof.
  induction 1 as [|c e Hc _ IH]; intros cur s; simpl.
  - now rewrite app_nil_r.
  - rewrite Hc, IH, <- app_assoc. reflexivity.
Qed.

Lemma splitlines_line (e s : str) :
  break_free e -> splitlines (e ++ LF :: s) = e :: splitlines s.
Proof.
  intros He. unfold splitlines at 1.
  rewrite splitlines_from_app by assumption. apply splitlines_from_LF.
Qed.

Lemma splitlines_from_nil_inv (cur s : str) :
  splitlines_from cur s = [] -> cur = [] /\ s = [].
Proof.
  revert cur; induction s as [|c s IH]; intros cur; simpl.
  - destruct cur; [auto | discriminate].
  - destruct (is_linebreak c); [discriminate|].
    intros H; apply IH in H. destruct H as [H _].
    destruct cur; discriminate.
Qed.

(** Every line [splitlines] returns is free of line boundaries. *)
Lemma splitlines_from_break_free (s cur : str) :
  break_free cur -> Forall break_free (splitlines_from cur s).
Proof.
  assert (Hnil : break_free []) by constructor.
  remember (List.length s) as n eqn:En.
  assert (Hn : List.length s <= n) by lia. clear En.
  revert s cur Hn; induction n as [|n IH]; intros s cur Hn Hcur.
  - destruct s; [|simpl in Hn; lia].
    destruct cur; simpl; [constructor | constructor; [assumption | constructor]].
  - destruct s as [|c s]; simpl.
    + destruct cur; simpl; [constructor | constructor; [assumption | constructor]].
    + simpl in Hn. destruct (is_linebreak c) eqn:Ec.
      * constructor; [assumption|].
        destruct s as [|c2 s']; [constructor|]. simpl in Hn.
        destruct (N.eqb c CR && N.eqb c2 LF); apply IH; simpl; auto; lia.
      * apply IH; [lia|].
        apply Forall_app; split; [assumption | constructor; [assumption | constructor]].
Qed.

Lemma splitlines_break_free (s : str) : Forall break_free (splitlines s).
Proof. apply splitlines_from_break_free; constructor. Qed.

Lemma strip_app_nonempty (a rest : str) :
  rest <> [] -> strip_final_newline (a ++ rest) = a ++ strip_final_newline rest.
Proof.
  intros Hr; induction a as [|c a IH]; [reflexivity|].
  change ((c :: a) ++ rest) with (c :: (a ++ rest)).
  simpl strip_final_newline at 1.
  destruct (a ++ rest) eqn:E.
  - apply app_eq_nil in E. tauto.
  - rewrite IH. reflexivity.
Qed.

Lemma strip_break_free (s : str) :
  break_free s -> strip_final_newline s = s.
Proof.
  induction 1 as [|c s Hc Hs IH]; [reflexivity|].
  simpl. destruct s as [|c' s'].
  - destruct (N.eqb_spec c LF) as [->|]; [discriminate Hc | reflexivity].
  - rewrite IH. reflexivity.
Qed.

Lemma strip_fixed (s : str) :
  strip_final_newline s = s <-> endswith s [LF] = false.
Proof.
  destruct s as [|c0 s0] using rev_ind; [split; reflexivity|].
  rewrite strip_app_nonempty by discriminate.
  unfold endswith. rewrite rev_app_distr. cbn [rev app startswith strip_final_newline].
  rewrite andb_true_r. destruct (N.eqb c0 LF).
  - split; [|discriminate]. intros H.
    apply (f_equal (@List.length char)) in H.
    rewrite !length_app in H. simpl in H. lia.
  - split; reflexivity.
Qed.

(** Splitting a text whose only boundary is LF and joining the lines
    with LF again loses one final LF and nothing else. *)
Lemma join_splitlines_from (s : str) :
  only_lf s ->
  forall cur, break_free cur ->
  join [LF] (splitlines_from cur s) = strip_final_newline (cur ++ s).
Proof.
  induction 1 as [|c s Hc Hs IH]; intros cur Hcur; simpl splitlines_from.
  - rewrite app_nil_r.
    destruct cur; [reflexivity|]. simpl join. symmetry. now apply strip_break_free.
  - destruct (is_linebreak c) eqn:Ec.
    + specialize (Hc eq_refl); subst c.
      replace (match s with
               | [] => []
               | c2 :: rest' =>
                   if N.eqb LF CR && N.eqb c2 LF
                   then splitlines_from [] rest'
                   else splitlines_from [] s
               end) with (splitlines_from [] s) by (destruct s; reflexivity).
      destruct s as [|c2 s'].
      * simpl. clear. induction cur as [|x cur IH]; [reflexivity|].
        simpl. destruct (cur ++ [LF]) eqn:E.
        -- destruct cur; discriminate.
        -- rewrite IH; reflexivity.
      * rewrite strip_app_nonempty by discriminate.
        change (strip_final_newline (LF :: c2 :: s'))
          with (LF :: strip_final_newline ([] ++ c2 :: s')).
        rewrite <- (IH [] (Forall_nil _)).
        destruct (splitlines_from [] (c2 :: s')) eqn:E.
        -- apply splitlines_from_nil_inv in E. destruct E; discriminate.
        -- reflexivity.
    + rewrite IH.
      * rewrite <- app_assoc; reflexivity.
      * apply Forall_app; split; [assumption | constructor; [assumption | constructor]].
Qed.

Lemma join_splitlines (s : str) :
  only_lf s -> join [LF] (splitlines s) = strip_final_newline s.
Proof. intros H. apply (join_splitlines_from s H [] (Forall_nil _)). Qed.

End TextFacts.

(** ** The line scanner of [postprocess_html] *)

Module HtmlFacts.
Import Html TextSpec TextFacts.

Lemma open_is_not_close : str_eqb STYLE_OPEN STYLE_CLOSE = false.
Proof. vm_compute; reflexivity. Qed.

Lemma close_is_not_open : str_eqb STYLE_CLOSE STYLE_OPEN = false.
Proof. vm_compute; reflexivity. Qed.

(** The three kinds of line. *)
Lemma step_open (st : state) :
  step st STYLE_OPEN = mkState (out st ++ [STYLE]) true.
Proof.
  unfold step. rewrite str_eqb_refl, open_is_not_close. reflexivity.
Qed.

Lemma step_close (st : state) :
  step st STYLE_CLOSE = mkState (out st ++ [STYLE_CLOSE]) false.
Proof.
  unfold step. rewrite str_eqb_refl, close_is_not_open.
  destruct st; reflexivity.
Qed.

Lemma step_other (st : state) (line : str) :
  line <> STYLE_OPEN -> line <> STYLE_CLOSE ->
  step st line = if css st then st else mkState (out st ++ [line]) false.
Proof.
  intros Ho Hc. unfold step.
  apply str_eqb_neq in Ho; apply str_eqb_neq in Hc. rewrite Ho, Hc.
  destruct st as [o [|]]; reflexivity.
Qed.

Lemma run_app (st : state) (l1 l2 : list str) :
  run st (l1 ++ l2) = run (run st l1) l2.
Proof. apply fold_left_app. Qed.

Lemma run_cons (st : state) (l : str) (ls : list str) :
  run st (l :: ls) = run (step st l) ls.
Proof. reflexivity. Qed.

(** While the flag is clear, every line that is not the opening tag is
    appended as it is: the closing tag too. *)
Lemma step_clear (st : state) (line : str) :
  css st = false -> line <> STYLE_OPEN ->
  step st line = mkState (out st ++ [line]) false.
Proof.
  intros Hcss Ho. unfold step. apply str_eqb_neq in Ho. rewrite Ho.
  destruct (str_eqb line STYLE_CLOSE); simpl; rewrite ?Hcss; reflexivity.
Qed.

Lemma run_clear (lines : list str) :
  ~ In STYLE_OPEN lines ->
  forall st, css st = false ->
  run st lines = mkState (out st ++ lines) false.
Proof.
  induction lines as [|l ls IH]; intros Hno st Hcss.
  - rewrite app_nil_r. destruct st; simpl in *; subst; reflexivity.
  - assert (Hl : l <> STYLE_OPEN) by (intros ->; apply Hno; left; reflexivity).
    assert (Hls : ~ In STYLE_OPEN ls) by (intros H; apply Hno; right; exact H).
    rewrite run_cons, step_clear by assumption.
    rewrite IH by (assumption || reflexivity).
    simpl. now rewrite <- app_assoc.
Qed.

(** While the flag is set and no closing tag comes, no line is appended:
    only one more snippet for each further opening tag. *)
Lemma run_suppressed (lines : list str) :
  ~ In STYLE_CLOSE lines ->
  forall st, css st = true ->
  run st lines = mkState (out st ++ repeat STYLE (count_open lines)) true.
Proof.
  induction lines as [|l ls IH]; intros Hno st Hcss.
  - simpl. rewrite app_nil_r. destruct st; simpl in *; subst; reflexivity.
  - assert (Hl : l <> STYLE_CLOSE) by (intros ->; apply Hno; left; reflexivity).
    assert (Hls : ~ In STYLE_CLOSE ls) by (intros H; apply Hno; right; exact H).
    rewrite run_cons. unfold count_open; simpl filter.
    destruct (str_eqb l STYLE_OPEN) eqn:E.
    + apply str_eqb_eq in E; subst l. rewrite step_open, IH by auto.
      simpl. now rewrite <- app_assoc.
    + apply str_eqb_neq in E. rewrite step_other, Hcss by auto.
      apply IH; auto.
Qed.

(** What is in [out] stays there. *)
Lemma step_keeps (st : state) (line x : str) :
  In x (out st) -> In x (out (step st line)).
Proof.
  intros H. unfold step.
  destruct (str_eqb line STYLE_OPEN), (str_eqb line STYLE_CLOSE);
    cbn [out css negb]; try (destruct (css st); cbn [out negb]);
    repeat (apply in_or_app; left); assumption.
Qed.

Lemma run_keeps (lines : list str) (x : str) :
  forall st, In x (out st) -> In x (out (run st lines)).
Proof.
  induction lines as [|l ls IH]; intros st H; [exact H|].
  rewrite run_cons. apply IH. now apply step_keeps.
Qed.

(** A closing-tag line of the input reaches the output. *)
Lemma run_emits_close (lines : list str) :
  In STYLE_CLOSE lines -> forall st, In STYLE_CLOSE (out (run st lines)).
Proof.
  induction lines as [|l ls IH]; intros H st; [contradiction|].
  rewrite run_cons. destruct H as [->|H]; [|now apply IH].
  apply run_keeps. rewrite step_close. cbn [out].
  apply in_or_app. right. left. reflexivity.
Qed.

(** One well-formed style section: the lines before it, the snippet, the
    closing tag and the lines after it are what comes out. *)
Lemma one_block_lines (pre body post : list str) :
  ~ In STYLE_OPEN pre -> ~ In STYLE_CLOSE body ->
  ~ In STYLE_OPEN body -> ~ In STYLE_OPEN post ->
  postprocess_lines (pre ++ STYLE_OPEN :: body ++ STYLE_CLOSE :: post)
  = pre ++ STYLE :: STYLE_CLOSE :: post.
Proof.
  intros Hpre Hbody Hbody' Hpost. unfold postprocess_lines.
  rewrite run_app, (run_clear pre Hpre) by reflexivity.
  rewrite run_cons, step_open, run_app, (run_suppressed body Hbody) by reflexivity.
  unfold count_open.
  replace (filter (fun l => str_eqb l STYLE_OPEN) body) with (@nil str).
  - rewrite run_cons, step_close, (run_clear post Hpost) by reflexivity.
    cbn [out List.length repeat app].
    rewrite app_nil_r, <- !app_assoc. reflexivity.
  - symmetry. clear -Hbody'. induction body as [|b body IH]; [reflexivity|].
    simpl. destruct (str_eqb b STYLE_OPEN) eqn:E.
    + apply str_eqb_eq in E. subst b. exfalso; apply Hbody'; left; reflexivity.
    + apply IH. intros H; apply Hbody'; right; exact H.
Qed.

(** *** What the scanner emits, and what a second pass sees *)

Lemma STYLE_shape : STYLE = LF :: STYLE_LINK ++ [LF].
Proof. reflexivity. Qed.

Lemma break_free_forallb (s : str) :
  forallb (fun c => negb (is_linebreak c)) s = true -> break_free s.
Proof.
  intros H. apply Forall_forall. intros c Hc.
  rewrite forallb_forall in H. apply H in Hc.
  now destruct (is_linebreak c).
Qed.

Lemma STYLE_LINK_break_free : break_free STYLE_LINK.
Proof. apply break_free_forallb. vm_compute; reflexivity. Qed.

Lemma STYLE_only_lf : only_lf STYLE.
Proof.
  rewrite STYLE_shape. change (LF :: STYLE_LINK ++ [LF]) with ([LF] ++ STYLE_LINK ++ [LF]).
  assert (H : only_lf [LF]) by (constructor; [reflexivity | constructor]).
  repeat apply only_lf_app; auto.
  apply break_free_only_lf, STYLE_LINK_break_free.
Qed.

Lemma step_emitted (st : state) (line : str) :
  break_free line -> Forall emitted (out st) ->
  Forall emitted (out (step st line)).
Proof.
  intros Hl Hst.
  destruct (str_eqb line STYLE_OPEN) eqn:Eo.
  - apply str_eqb_eq in Eo; subst line. rewrite step_open; simpl.
    apply Forall_app; split; [assumption|].
    constructor; [right; reflexivity | constructor].
  - apply str_eqb_neq in Eo.
    assert (He : emitted line) by (left; split; assumption).
    destruct (str_eqb line STYLE_CLOSE) eqn:Ec.
    + apply str_eqb_eq in Ec; subst line. rewrite step_close; simpl.
      apply Forall_app; split; [assumption | constructor; [assumption | constructor]].
    + apply str_eqb_neq in Ec. rewrite step_other by assumption.
      destruct (css st); simpl; [assumption|].
      apply Forall_app; split; [assumption | constructor; [assumption | constructor]].
Qed.

Lemma run_emitted (lines : list str) :
  Forall break_free lines ->
  forall st, Forall emitted (out st) -> Forall emitted (out (run st lines)).
Proof.
  induction 1 as [|l ls Hl _ IH]; intros st Hst; [assumption|].
  rewrite run_cons. apply IH. now apply step_emitted.
Qed.

Lemma postprocess_lines_emitted (data : str) :
  Forall emitted (postprocess_lines (splitlines data)).
Proof.
  apply run_emitted; [apply splitlines_break_free | constructor].
Qed.

Lemma emitted_only_lf (e : str) : emitted e -> only_lf e.
Proof.
  intros [[H _] | ->]; [now apply break_free_only_lf | apply STYLE_only_lf].
Qed.

Lemma join_only_lf (outs : list str) :
  Forall emitted outs -> only_lf (join [LF] outs).
Proof.
  induction 1 as [|e outs He _ IH]; [constructor|].
  destruct outs as [|e2 outs]; simpl.
  - now apply emitted_only_lf.
  - apply only_lf_app; [now apply emitted_only_lf|].
    constructor; [reflexivity | exact IH].
Qed.

(** Splitting the joined output again never yields the opening tag. *)
Lemma splitlines_join_no_open (outs : list str) :
  Forall emitted outs -> ~ In STYLE_OPEN (splitlines (join [LF] outs)).
Proof.
  induction 1 as [|e outs He _ IH]; [intros []|].
  destruct outs as [|e2 outs].
  - simpl join. destruct He as [[Hbf Hne] | ->].
    + unfold splitlines.
      rewrite <- (app_nil_r e), splitlines_from_app by assumption. simpl.
      destruct e; [intros [] | intros [H|[]]; congruence].
    + vm_compute. intros [H|[H|[]]]; discriminate H.
  - change (join [LF] (e :: e2 :: outs)) with (e ++ LF :: join [LF] (e2 :: outs)).
    destruct He as [[Hbf Hne] | ->].
    + rewrite splitlines_line by assumption.
      intros [H|H]; [congruence | exact (IH H)].
    + rewrite STYLE_shape.
      change ((LF :: STYLE_LINK ++ [LF]) ++ LF :: join [LF] (e2 :: outs))
        with (LF :: ((STYLE_LINK ++ [LF]) ++ LF :: join [LF] (e2 :: outs))).
      unfold splitlines at 1. rewrite splitlines_from_LF, <- app_assoc.
      change ([LF] ++ LF :: join [LF] (e2 :: outs))
        with (LF :: LF :: join [LF] (e2 :: outs)).
      rewrite splitlines_line by apply STYLE_LINK_break_free.
      unfold splitlines at 1. rewrite splitlines_from_LF.
      intros [H|[H|[H|H]]]; try discriminate H. exact (IH H).
Qed.

(** Without an opening-tag line the scanner copies its input. *)
Lemma postprocess_lines_clear (lines : list str) :
  ~ In STYLE_OPEN lines -> postprocess_lines lines = lines.
Proof.
  intros H. unfold postprocess_lines. now rewrite run_clear.
Qed.

End HtmlFacts.

(** ** Facts about paths and the file tree *)

Module OsFacts.
Import Os RunSpec TextFacts.
Local Open Scope os_scope.
Local Arguments N.eqb : simpl never.

Lemma path_eqb_eq (p q : path) : path_eqb p q = true <-> p = q.
Proof.
  revert q; induction p as [|a p IH]; intros [|b q]; simpl;
    try (split; [discriminate | congruence]); try tauto.
  rewrite andb_true_iff, str_eqb_eq, IH. split.
  - intros [-> ->]; reflexivity.
  - intros E; injection E; auto.
Qed.

Lemma path_eqb_refl (p : path) : path_eqb p p = true.
Proof. apply path_eqb_eq; reflexivity. Qed.

Lemma path_eqb_neq (p q : path) : p <> q -> path_eqb p q = false.
Proof.
  intros H. destruct (path_eqb p q) eqn:E; [|reflexivity].
  apply path_eqb_eq in E. contradiction.
Qed.

(** *** Components *)

Lemma components_from_app_slash (a b cur : str) :
  components_from cur (a ++ SLASH :: b) = components_from cur a ++ components b.
Proof.
  revert cur; induction a as [|c a IH]; intros cur; simpl.
  - destruct cur; reflexivity.
  - destruct (N.eqb c SLASH); [|apply IH].
    destruct cur; simpl; rewrite IH; reflexivity.
Qed.

Lemma components_app_slash (a b : str) :
  components (a ++ SLASH :: b) = components a ++ components b.
Proof. apply components_from_app_slash. Qed.

Lemma components_from_slash_free (n cur : str) :
  existsb (N.eqb SLASH) n = false ->
  components_from cur n = match cur ++ n with [] => [] | _ => [cur ++ n] end.
Proof.
  revert cur; induction n as [|c n IH]; intros cur H; simpl.
  - rewrite app_nil_r. reflexivity.
  - simpl in H. apply orb_false_iff in H. destruct H as [Hc Hn].
    rewrite N.eqb_sym, Hc, IH by assumption.
    rewrite <- app_assoc. reflexivity.
Qed.

Lemma valid_name_slash_free (n : str) :
  valid_name n = true -> n <> [] /\ existsb (N.eqb SLASH) n = false.
Proof.
  destruct n as [|c n]; [discriminate|]. unfold valid_name.
  intros H. apply negb_true_iff in H. split; [discriminate | exact H].
Qed.

Lemma components_name (n : str) : valid_name n = true -> components n = [n].
Proof.
  intros H. apply valid_name_slash_free in H. destruct H as [Hne Hsf].
  unfold components. rewrite components_from_slash_free by assumption.
  destruct n; [contradiction | reflexivity].
Qed.

Lemma endswith_slash (a : str) :
  endswith a [SLASH] = true -> exists a', a = a' ++ [SLASH].
Proof.
  unfold endswith. destruct (rev a) as [|c r] eqn:E; simpl; [discriminate|].
  rewrite andb_true_r. intros H. apply N.eqb_eq in H. subst c.
  exists (rev r). rewrite <- (rev_involutive a), E. reflexivity.
Qed.

(** Joining a directory path and the name of one of its entries adds
    one component. *)
Lemma components_join (top d : str) :
  valid_name d = true ->
  components (path_join top d) = components top ++ [d].
Proof.
  intros Hd. pose proof (components_name d Hd) as Hc.
  destruct (valid_name_slash_free d Hd) as [Hne Hsf].
  unfold path_join.
  assert (Hs : startswith d [SLASH] = false).
  { destruct d as [|c d]; [contradiction|]. simpl in *.
    apply orb_false_iff in Hsf. destruct Hsf as [Hc' _].
    rewrite N.eqb_sym in Hc'. rewrite Hc'. reflexivity. }
  rewrite Hs. destruct top as [|c top]; [exact Hc|].
  destruct (endswith (c :: top) [SLASH]) eqn:E.
  - apply endswith_slash in E. destruct E as [a' ->].
    rewrite <- app_assoc. simpl app.
    rewrite !components_app_slash, Hc. unfold components at 3. simpl.
    rewrite app_nil_r. reflexivity.
  - simpl app. rewrite app_comm_cons, components_app_slash, Hc.
    reflexivity.
Qed.

Lemma components_valid_from (s cur : str) :
  existsb (N.eqb SLASH) cur = false ->
  Forall (fun n => valid_name n = true) (components_from cur s).
Proof.
  revert cur; induction s as [|c s IH]; intros cur Hcur; simpl.
  - destruct cur as [|x cur]; constructor; [|constructor].
    unfold valid_name. now rewrite Hcur.
  - destruct (N.eqb_spec c SLASH) as [->|Hc].
    + destruct cur as [|x cur]; [apply IH; reflexivity|].
      constructor; [unfold valid_name; now rewrite Hcur | apply IH; reflexivity].
    + apply IH. rewrite existsb_app. apply orb_false_iff. split; [exact Hcur|].
      simpl. rewrite orb_false_r. apply N.eqb_neq. congruence.
Qed.

Lemma components_valid (s : str) :
  Forall (fun n => valid_name n = true) (components s).
Proof. apply components_valid_from; reflexivity. Qed.

Lemma components_mirror (s : str) :
  components (of_string "doc/api/" ++ s) = mirror (components s).
Proof.
  change (of_string "doc/api/" ++ s)
    with (of_string "doc" ++ SLASH :: (of_string "api" ++ SLASH :: s)).
  rewrite !components_app_slash. reflexivity.
Qed.

Lemma resolve_mirror (t : fs) (s : str) :
  resolve t (of_string "doc/api/" ++ s) = lookup t (mirror (components s)).
Proof.
  change (resolve t (of_string "doc/api/" ++ s))
    with (node_at t (components (of_string "doc/api/" ++ s))).
  rewrite components_mirror. reflexivity.
Qed.

Lemma resolve_components (t : fs) (s : str) :
  components s <> [] -> resolve t s = lookup t (components s).
Proof.
  intros H. destruct s as [|c s]; [contradiction H; reflexivity|].
  unfold resolve, node_at. destruct (components (c :: s)); [contradiction|reflexivity].
Qed.

(** *** Lookup *)

Lemma lookup_app (t a : fs) (p : path) :
  lookup (t ++ a) p
  = match lookup t p with Some n => Some n | None => lookup a p end.
Proof.
  induction t as [|[q n] t IH]; simpl; [reflexivity|].
  destruct (path_eqb q p); [reflexivity | exact IH].
Qed.

Lemma lookup_In (t : fs) (p : path) (n : node) :
  lookup t p = Some n -> In (p, n) t.
Proof.
  induction t as [|[q x] t IH]; simpl; [discriminate|].
  destruct (path_eqb q p) eqn:E.
  - apply path_eqb_eq in E. subst q. intros [= ->]. left; reflexivity.
  - intros H; right; apply IH; exact H.
Qed.

Lemma lookup_set_file_same (t : fs) (p : path) (c : str) :
  lookup (set_file t p c) p = Some (File c).
Proof.
  induction t as [|[q n] t IH]; simpl.
  - rewrite path_eqb_refl. reflexivity.
  - destruct (path_eqb q p) eqn:E; simpl; rewrite E; [reflexivity | exact IH].
Qed.

Lemma lookup_set_file_other (t : fs) (p q : path) (c : str) :
  p <> q -> lookup (set_file t p c) q = lookup t q.
Proof.
  intros Hpq. induction t as [|[r n] t IH]; simpl.
  - rewrite path_eqb_neq by assumption. reflexivity.
  - destruct (path_eqb r p) eqn:E; simpl.
    + apply path_eqb_eq in E. subst r. rewrite path_eqb_neq by assumption.
      reflexivity.
    + destruct (path_eqb r q); [reflexivity | exact IH].
Qed.

(** *** Directory listings *)

Lemma listdir_app (t a : fs) (q : path) :
  listdir (t ++ a) q = listdir t q ++ listdir a q.
Proof. apply flat_map_app. Qed.

Lemma last_snoc (q : path) (n : str) : last (q ++ [n]) [] = n.
Proof. apply last_last. Qed.

Lemma parent_snoc (q : path) (n : str) : parent (q ++ [n]) = q.
Proof. apply removelast_last. Qed.

Lemma In_listdir (t : fs) (q : path) (n : str) (x : node) :
  In (q ++ [n], x) t -> valid_name n = true -> In (n, x) (listdir t q).
Proof.
  intros Hin Hn. unfold listdir. apply in_flat_map.
  exists (q ++ [n], x). split; [assumption|]. simpl fst; simpl snd.
  rewrite parent_snoc, last_snoc, path_eqb_refl, Hn.
  destruct (q ++ [n]) eqn:E; [destruct q; discriminate | left; reflexivity].
Qed.

Lemma listdir_In (t : fs) (q : path) (n : str) (x : node) :
  In (n, x) (listdir t q) -> valid_name n = true /\ In (q ++ [n], x) t.
Proof.
  unfold listdir. rewrite in_flat_map. intros [[p y] [Hin H]].
  cbn [fst snd] in H.
  destruct p as [|a p]; [contradiction|].
  destruct (path_eqb (parent (a :: p)) q) eqn:Eq; [|contradiction].
  destruct (valid_name (last (a :: p) [])) eqn:Ev; [|contradiction].
  destruct H as [H|[]]. injection H as Hn Hx.
  apply path_eqb_eq in Eq. subst q n x. split; [assumption|].
  unfold parent.
  change (match p with [] => a | _ :: _ => last p [] end) with (last (a :: p) []).
  rewrite <- app_removelast_last by discriminate. assumption.
Qed.

End OsFacts.

(** ** Facts about the log of a run *)

Module LogFacts.
Import Os RunSpec OsFacts.
Local Open Scope os_scope.

Lemma emits_silent {A} (P : event -> Prop) (m : M A) :
  (forall w, log (snd (m w)) = log w) -> emits P m.
Proof.
  intros H w. exists []. rewrite app_nil_r. split; [apply H | constructor].
Qed.

Lemma emits_ret {A} (P : event -> Prop) (a : A) : emits P (ret a).
Proof. apply emits_silent; reflexivity. Qed.

Lemma emits_raise {A} (P : event -> Prop) (e : exn) : emits P (@raise A e).
Proof. apply emits_silent; reflexivity. Qed.

Lemma emits_weaken {A} (P Q : event -> Prop) (m : M A) :
  (forall e, P e -> Q e) -> emits P m -> emits Q m.
Proof.
  intros HPQ Hm w. destruct (Hm w) as [evs [E F]].
  exists evs. split; [exact E | eapply Forall_impl; eauto].
Qed.

Lemma emits_bind {A B} (P : event -> Prop) (m : M A) (k : A -> M B) :
  emits P m -> (forall a, emits P (k a)) -> emits P (bind m k).
Proof.
  intros Hm Hk w. unfold bind. destruct (Hm w) as [e1 [E1 F1]].
  destruct (m w) as [[a|e] w1]; simpl in E1.
  - destruct (Hk a w1) as [e2 [E2 F2]]. exists (e1 ++ e2).
    rewrite E2, E1, app_assoc. split; [reflexivity | now apply Forall_app].
  - exists e1. auto.
Qed.

Lemma emits_foldM {A B} (P : event -> Prop) (f : A -> B -> M A) (l : list B) :
  (forall a x, In x l -> emits P (f a x)) ->
  forall acc, emits P (foldM f l acc).
Proof.
  induction l as [|x l IH]; intros Hf acc; simpl.
  - apply emits_ret.
  - apply emits_bind; [apply Hf; left; reflexivity|].
    intros a. apply IH. intros a' y Hy. apply Hf. right; exact Hy.
Qed.

Lemma emits_for_each {B} (P : event -> Prop) (l : list B) (f : B -> M unit) :
  (forall x, In x l -> emits P (f x)) -> emits P (for_each l f).
Proof. intros H. apply emits_foldM. intros _ x Hx. now apply H. Qed.

Lemma emits_path_exists (P : event -> Prop) (s : str) : emits P (path_exists s).
Proof. apply emits_silent; reflexivity. Qed.

Lemma emits_read_text (P : event -> Prop) (s : str) : emits P (read_text s).
Proof.
  apply emits_silent. intros w. unfold read_text.
  destruct (resolve (tree w) s) as [[c|]|]; reflexivity.
Qed.

Lemma emits_open_w (P : event -> Prop) (s : str) : emits P (open_w s).
Proof.
  apply emits_silent. intros w. unfold open_w.
  destruct s as [|c s]; [reflexivity|].
  destruct (node_at (tree w) (parent (components (c :: s)))) as [[c'|]|];
    try reflexivity.
  destruct (resolve (tree w) (c :: s)) as [[c'|]|]; reflexivity.
Qed.

(** The calls that leave the log alone, for [auto]. *)
Create HintDb emits.
#[export] Hint Resolve emits_ret emits_raise emits_path_exists
  emits_read_text emits_open_w : emits.

(** A sequence of calls: one goal for each call that logs. *)
Ltac emits_seq :=
  repeat (apply emits_bind; [|intros ?]); auto with emits.

Lemma emits_mkdir (P : event -> Prop) (s : str) :
  P (EMkdir s) -> emits P (mkdir s).
Proof.
  intros HP w. unfold mkdir.
  destruct (resolve (tree w) s) as [n|];
    [exists []; rewrite app_nil_r; split; [reflexivity | constructor]|].
  destruct s as [|c s];
    [exists []; rewrite app_nil_r; split; [reflexivity | constructor]|].
  destruct (node_at (tree w) (parent (components (c :: s)))) as [[c'|]|];
    try (exists []; rewrite app_nil_r; split; [reflexivity | constructor]).
  exists [EMkdir (c :: s)]. split; [reflexivity | constructor; [exact HP | constructor]].
Qed.

Lemma emits_write_text (P : event -> Prop) (s data : str) :
  P (EWrite s) -> emits P (write_text s data).
Proof.
  intros HP w. exists [EWrite s].
  split; [reflexivity | constructor; [exact HP | constructor]].
Qed.

Lemma emits_check_call (P : event -> Prop) run_process (argv : list str) :
  P (ECall argv) -> emits P (check_call run_process argv).
Proof.
  intros HP w. exists [ECall argv]. unfold check_call.
  destruct (run_process argv (tree w)) as [code t'].
  split; [destruct (Z.eqb code 0); reflexivity | constructor; [exact HP | constructor]].
Qed.

(** The names a scan returns are names of entries. *)
Lemma scandir_valid (t : fs) (top : str) (dirs files : list str) :
  scandir t top = Some (dirs, files) ->
  Forall (fun n => valid_name n = true) dirs
  /\ Forall (fun n => valid_name n = true) files.
Proof.
  unfold scandir. destruct (resolve t top) as [[c|]|]; try discriminate.
  intros [= <- <-].
  split; apply Forall_forall; intros n Hn; apply in_map_iff in Hn;
    destruct Hn as [[n' x] [<- Hn]]; apply filter_In in Hn;
    destruct Hn as [Hn _]; apply listdir_In in Hn; tauto.
Qed.

(** A walk emits what its body emits.  [R] is what is known of every
    directory path the walk yields. *)
Lemma emits_walk_for {A} (P : event -> Prop) (R : str -> Prop)
    (body : A -> str * list str * list str -> M A) :
  (forall top d, R top -> valid_name d = true -> R (path_join top d)) ->
  (forall acc top dirs files,
      R top -> Forall (fun n => valid_name n = true) files ->
      emits P (body acc (top, dirs, files))) ->
  forall fuel top acc, R top -> emits P (walk_for fuel top body acc).
Proof.
  intros HR Hbody. induction fuel as [|fuel IH]; intros top acc Htop.
  - apply emits_raise.
  - intros w. simpl.
    destruct (scandir (tree w) top) as [[dirs files]|] eqn:Es.
    + destruct (scandir_valid _ _ _ _ Es) as [Hd Hf].
      apply emits_bind; [now apply Hbody|].
      intros a. apply emits_foldM. intros a' d Hin.
      apply IH. apply HR; [assumption|].
      rewrite Forall_forall in Hd. now apply Hd.
    + exists []. rewrite app_nil_r. split; [reflexivity | constructor].
Qed.

Lemma emits_then_left {A} (P Q : event -> Prop) (m : M A) :
  emits P m -> emits_then P Q m.
Proof.
  intros H w. destruct (H w) as [evs [E F]]. exists evs, [].
  rewrite app_nil_r. auto.
Qed.

Lemma emits_then_right {A} (P Q : event -> Prop) (m : M A) :
  emits Q m -> emits_then P Q m.
Proof.
  intros H w. destruct (H w) as [evs [E F]]. exists [], evs. auto.
Qed.

Lemma emits_then_bind {A B} (P Q : event -> Prop) (m : M A) (k : A -> M B) :
  emits P m -> (forall a, emits_then P Q (k a)) -> emits_then P Q (bind m k).
Proof.
  intros Hm Hk w. unfold bind. destruct (Hm w) as [e0 [E0 F0]].
  destruct (m w) as [[a|e] w1]; simpl in E0.
  - destruct (Hk a w1) as [e1 [e2 [E [F1 F2]]]]. exists (e0 ++ e1), e2.
    rewrite E, E0, <- !app_assoc.
    split; [reflexivity | split; [now apply Forall_app | assumption]].
  - exists e0, []. rewrite app_nil_r. auto.
Qed.

(** In a log made of events of [P] followed by events of [Q], an event
    that is not of [Q] comes before every event that is not of [P]. *)
Lemma phases_ordered (P Q : event -> Prop) (e1 e2 : list event)
    (i j : nat) (a b : event) :
  Forall P e1 -> Forall Q e2 ->
  nth_error (e1 ++ e2) i = Some a -> ~ Q a ->
  nth_error (e1 ++ e2) j = Some b -> ~ P b ->
  i < j.
Proof.
  intros F1 F2 Hi Ha Hj Hb.
  rewrite Forall_forall in F1, F2.
  assert (Hi' : i < List.length e1).
  { destruct (Nat.lt_ge_cases i (List.length e1)) as [H|H]; [exact H|].
    rewrite nth_error_app2 in Hi by assumption.
    apply nth_error_In in Hi. apply F2 in Hi. contradiction. }
  assert (Hj' : List.length e1 <= j).
  { destruct (Nat.lt_ge_cases j (List.length e1)) as [H|H]; [|exact H].
    rewrite nth_error_app1 in Hj by assumption.
    apply nth_error_In in Hj. apply F1 in Hj. contradiction. }
  lia.
Qed.

End LogFacts.

(** ** Facts about the script *)

Module ScriptFacts.
Import Os Builddocs RunSpec OsFacts LogFacts.
Local Open Scope os_scope.
Local Arguments N.eqb : simpl never.
Local Arguments of_string : simpl never.

Lemma grows_refl (t : fs) : grows t t.
Proof. exists []. rewrite app_nil_r. split; [reflexivity | constructor]. Qed.

Lemma grows_trans (t1 t2 t3 : fs) : grows t1 t2 -> grows t2 t3 -> grows t1 t3.
Proof.
  intros [a [-> Fa]] [b [-> Fb]]. exists (a ++ b).
  rewrite app_assoc. split; [reflexivity | now apply Forall_app].
Qed.

Lemma grows_lookup_some (t t' : fs) (p : path) (n : node) :
  grows t t' -> lookup t p = Some n -> lookup t' p = Some n.
Proof. intros [a [-> _]] H. rewrite lookup_app, H. reflexivity. Qed.

Lemma lookup_added (added : fs) (p : path) (n : node) :
  Forall mirror_entry added -> lookup added p = Some n ->
  n = Dir /\ exists q, p = mirror q.
Proof.
  intros F H. apply lookup_In in H. rewrite Forall_forall in F.
  apply F in H. destruct H as [q [= -> ->]]. eauto.
Qed.

Lemma grows_lookup_inv (t t' : fs) (p : path) (n : node) :
  grows t t' -> lookup t' p = Some n ->
  lookup t p = Some n \/ (lookup t p = None /\ n = Dir).
Proof.
  intros [a [-> F]]. rewrite lookup_app.
  destruct (lookup t p); [auto|]. intros H.
  right. split; [reflexivity|]. now destruct (lookup_added _ _ _ F H).
Qed.

Lemma in_source_not_mirror (p q : path) : in_source p -> p <> mirror q.
Proof. intros [r ->]. unfold mirror. intros E. discriminate E. Qed.

Lemma grows_lookup_source (t t' : fs) (p : path) :
  grows t t' -> in_source p -> lookup t' p = lookup t p.
Proof.
  intros [a [-> F]] Hp. rewrite lookup_app.
  destruct (lookup t p); [reflexivity|].
  destruct (lookup a p) eqn:E; [|reflexivity].
  destruct (lookup_added _ _ _ F E) as [_ [q ->]].
  exfalso. exact (in_source_not_mirror _ _ Hp eq_refl).
Qed.

Lemma parent_cons (a : str) (p : path) :
  p <> [] -> parent (a :: p) = a :: parent p.
Proof. destruct p; [contradiction | reflexivity]. Qed.

Lemma parent_mirror (q : path) : q <> [] -> parent (mirror q) = mirror (parent q).
Proof.
  intros H. unfold mirror. rewrite parent_cons by discriminate.
  rewrite parent_cons by assumption. reflexivity.
Qed.

Lemma listdir_single_other (p q : path) (n : node) :
  parent p <> q -> listdir [(p, n)] q = [].
Proof.
  intros H. unfold listdir. cbn [flat_map fst snd].
  rewrite (path_eqb_neq _ _ H). destruct p; reflexivity.
Qed.

Lemma listdir_added (added : fs) (q : path) :
  Forall mirror_entry added -> in_source q -> listdir added q = [].
Proof.
  intros F Hq. induction F as [|e added [q' ->] _ IH]; [reflexivity|].
  change ((mirror q', Dir) :: added) with ([(mirror q', Dir)] ++ added).
  rewrite listdir_app, IH, app_nil_r.
  apply listdir_single_other. intros E. destruct Hq as [r ->].
  destruct q' as [|a q'].
  - discriminate E.
  - rewrite parent_mirror in E by discriminate. discriminate E.
Qed.

Lemma grows_listdir_source (t t' : fs) (q : path) :
  grows t t' -> in_source q -> listdir t' q = listdir t q.
Proof.
  intros [a [-> F]] Hq. rewrite listdir_app, (listdir_added _ _ F Hq).
  apply app_nil_r.
Qed.

Lemma in_source_nonempty (q : path) : in_source q -> q <> [].
Proof. intros [r ->]; discriminate. Qed.

Lemma in_source_snoc (q : path) (n : str) : in_source q -> in_source (q ++ [n]).
Proof. intros [r ->]. exists (r ++ [n]). reflexivity. Qed.

Lemma grows_scandir_source (t t' : fs) (top : str) :
  grows t t' -> in_source (components top) -> scandir t' top = scandir t top.
Proof.
  intros G Hq. unfold scandir.
  rewrite !resolve_components by now apply in_source_nonempty.
  rewrite (grows_lookup_source _ _ _ G Hq), (grows_listdir_source _ _ _ G Hq).
  reflexivity.
Qed.

Lemma reach_root_dir (t : fs) (q d : path) :
  reach t q d -> lookup t q = Some Dir.
Proof. destruct 1; assumption. Qed.

Lemma depth_In (t : fs) (p : path) (n : node) :
  In (p, n) t -> List.length p <= depth t.
Proof.
  intros H. unfold depth.
  assert (Hall := proj1 (list_max_le (map (fun e => List.length (fst e)) t)
                                     (list_max (map (fun e => List.length (fst e)) t)))
                        (Nat.le_refl _)).
  rewrite Forall_forall in Hall. apply Hall.
  apply in_map_iff. exists (p, n). split; [reflexivity | assumption].
Qed.

(** Scanning a directory of the source tree lists each of its
    sub-directories. *)
Lemma scandir_lists_dirs (t : fs) (top : str) (dirs files : list str) (n : str) :
  scandir t top = Some (dirs, files) ->
  valid_name n = true -> lookup t (components top ++ [n]) = Some Dir ->
  In n dirs.
Proof.
  unfold scandir. destruct (resolve t top) as [[c|]|]; try discriminate.
  intros [= <- _] Hn Hl. apply lookup_In in Hl.
  apply in_map_iff. exists (n, Dir). split; [reflexivity|].
  apply filter_In. split; [now apply In_listdir | reflexivity].
Qed.

Lemma scandir_dirs_In (t : fs) (top : str) (dirs files : list str) (n : str) :
  scandir t top = Some (dirs, files) -> In n dirs ->
  valid_name n = true /\ exists x, In (components top ++ [n], x) t.
Proof.
  unfold scandir. destruct (resolve t top) as [[c|]|]; try discriminate.
  intros [= <- _] Hn. apply in_map_iff in Hn.
  destruct Hn as [[n' x] [E Hn]]. simpl in E. subst n'.
  apply filter_In in Hn. destruct Hn as [Hn _].
  apply listdir_In in Hn. destruct Hn as [Hv Hin]. eauto.
Qed.

Lemma scandir_is_dir (t : fs) (top : str) (dirs files : list str) :
  scandir t top = Some (dirs, files) -> resolve t top = Some Dir.
Proof.
  unfold scandir. destruct (resolve t top) as [[c|]|]; try discriminate.
  reflexivity.
Qed.

(** *** Creating a mirrored directory *)

Lemma ensure_dir_eq (s : str) (w : world) :
  ensure_dir s w
  = match resolve (tree w) s with
    | Some _ => (Ok tt, w)
    | None => mkdir s w
    end.
Proof.
  unfold ensure_dir, bind, path_exists.
  destruct (resolve (tree w) s); reflexivity.
Qed.

Lemma mirror_nonempty (q : path) : mirror q <> [].
Proof. discriminate. Qed.

Lemma resolve_of_mirror (t : fs) (s : str) (q : path) :
  components s = mirror q -> resolve t s = lookup t (mirror q).
Proof.
  intros Hc. rewrite resolve_components, Hc; [reflexivity|].
  rewrite Hc. apply mirror_nonempty.
Qed.

Lemma ensure_dir_post (s : str) (q : path) (w w' : world) :
  components s = mirror q -> ensure_dir s w = (Ok tt, w') ->
  grows (tree w) (tree w')
  /\ lookup (tree w') (mirror q) <> None
  /\ (lookup (tree w) (mirror q) = None -> lookup (tree w') (mirror q) = Some Dir).
Proof.
  intros Hc. rewrite ensure_dir_eq.
  pose proof (resolve_of_mirror (tree w) s q Hc) as Hr.
  rewrite Hr. destruct (lookup (tree w) (mirror q)) as [x|] eqn:E.
  - intros [= <-].
    split; [apply grows_refl | split; [rewrite E; discriminate | discriminate]].
  - unfold mkdir. rewrite Hr.
    destruct s as [|c s]; [discriminate|].
    destruct (node_at (tree w) (parent (components (c :: s)))) as [[c'|]|];
      try discriminate.
    intros [= <-]. cbn [tree]. rewrite Hc.
    assert (L : lookup (tree w ++ [(mirror q, Dir)]) (mirror q) = Some Dir).
    { rewrite lookup_app, E. cbn [lookup]. now rewrite path_eqb_refl. }
    split; [|split; [rewrite L; discriminate | intros _; exact L]].
    exists [(mirror q, Dir)]. split; [reflexivity|].
    constructor; [exists q; reflexivity | constructor].
Qed.

Lemma ensure_dir_succeeds (s : str) (q : path) (w : world) :
  components s = mirror q ->
  lookup (tree w) (mirror q) <> None
  \/ node_at (tree w) (parent (mirror q)) = Some Dir ->
  exists w', ensure_dir s w = (Ok tt, w').
Proof.
  intros Hc H. rewrite ensure_dir_eq.
  pose proof (resolve_of_mirror (tree w) s q Hc) as Hr.
  rewrite Hr. destruct (lookup (tree w) (mirror q)) as [x|] eqn:E; [eauto|].
  destruct H as [H|H]; [contradiction H; reflexivity|].
  unfold mkdir. rewrite Hr.
  destruct s as [|c s]; [discriminate|].
  rewrite Hc, H. eauto.
Qed.

Lemma collect_body_eq (acc : list str) (top : str) (dirs files : list str)
    (w : world) :
  collect_body acc (top, dirs, files) w
  = match ensure_dir (of_string "doc/api/" ++ top) w with
    | (Ok _, w1) => (Ok (collect_names top files acc), w1)
    | (Raise e, w1) => (Raise e, w1)
    end.
Proof. reflexivity. Qed.

(** *** The walk over the source tree *)

Section Walk.
Variable t0 : fs.

Lemma mirrored_below_grows (q : path) (w w' : world) :
  mirrored_below t0 q w -> grows (tree w) (tree w') -> mirrored_below t0 q w'.
Proof.
  intros H G d Hd. specialize (H d Hd).
  destruct (lookup (tree w) (mirror d)) as [x|] eqn:E; [|contradiction].
  rewrite (grows_lookup_some _ _ _ _ G E). discriminate.
Qed.

Lemma foldM_post {A} (f : A -> str -> M A) (ds : list str)
    (Pn : str -> world -> Prop) :
  (forall a d w a' w', In d ds -> grows t0 (tree w) ->
      f a d w = (Ok a', w') -> grows (tree w) (tree w') /\ Pn d w') ->
  (forall d w w', Pn d w -> grows (tree w) (tree w') -> Pn d w') ->
  forall acc w acc' w', grows t0 (tree w) ->
    foldM f ds acc w = (Ok acc', w') ->
    grows (tree w) (tree w') /\ forall d, In d ds -> Pn d w'.
Proof.
  intros Hstep Hmono. induction ds as [|d ds IH]; intros acc w acc' w' G.
  - intros [= <- <-]. split; [apply grows_refl | intros d []].
  - cbn [foldM]. unfold bind. destruct (f acc d w) as [[a|e] w1] eqn:E;
      [|discriminate].
    intros Hrest.
    destruct (Hstep _ _ _ _ _ (or_introl eq_refl) G E) as [G1 P1].
    assert (G01 : grows t0 (tree w1)) by (eapply grows_trans; eauto).
    destruct IH with (2 := G01) (3 := Hrest) as [G2 P2].
    { intros a0 d0 w0 a0' w0' Hin. apply Hstep. right; exact Hin. }
    split; [eapply grows_trans; eauto|].
    intros d' [<-|Hin]; [eapply Hmono; eauto | now apply P2].
Qed.

Lemma walk_post (fuel : nat) :
  forall top acc w acc' w',
    in_source (components top) -> grows t0 (tree w) ->
    walk_for fuel top collect_body acc w = (Ok acc', w') ->
    grows (tree w) (tree w') /\ mirrored_below t0 (components top) w'.
Proof.
  induction fuel as [|fuel IH]; intros top acc w acc' w' Hsrc G;
    [discriminate|].
  cbn [walk_for].
  destruct (scandir (tree w) top) as [[dirs files]|] eqn:Es.
  - unfold bind. rewrite collect_body_eq.
    destruct (ensure_dir (of_string "doc/api/" ++ top) w) as [[[]|e] w1] eqn:Ee;
      [|discriminate].
    intros Hfold.
    destruct (ensure_dir_post _ _ _ _ (components_mirror top) Ee)
      as [G1 [Hq _]].
    assert (G01 : grows t0 (tree w1)) by (eapply grows_trans; eauto).
    destruct (scandir_valid _ _ _ _ Es) as [Hvalid _].
    rewrite Forall_forall in Hvalid.
    destruct (foldM_post
                (fun a d => walk_for fuel (path_join top d) collect_body a) dirs
                (fun d w => mirrored_below t0 (components top ++ [d]) w))
      with (3 := G01) (4 := Hfold) as [G2 P2].
    { intros a d w0 a' w0' Hin G0 Hw.
      rewrite <- (components_join top d (Hvalid d Hin)).
      apply (IH _ _ _ _ _) with (3 := Hw); [|assumption].
      rewrite components_join by now apply Hvalid.
      now apply in_source_snoc. }
    { intros d w0 w0'. apply mirrored_below_grows. }
    split; [eapply grows_trans; eauto|].
    intros d Hd. inversion Hd as [q Hl|q n d' Hl Hn Hsub]; subst.
    + destruct (lookup (tree w1) (mirror (components top))) as [x|] eqn:E;
        [|contradiction].
      rewrite (grows_lookup_some _ _ _ _ G2 E). discriminate.
    + apply (P2 n); [|assumption].
      rewrite (grows_scandir_source _ _ _ G Hsrc) in Es.
      eapply scandir_lists_dirs; eauto.
      eapply reach_root_dir; eauto.
  - intros [= <- <-]. split; [apply grows_refl|].
    intros d Hd. apply reach_root_dir in Hd.
    rewrite (grows_scandir_source _ _ _ G Hsrc) in Es.
    unfold scandir in Es.
    rewrite resolve_components, Hd in Es by now apply in_source_nonempty.
    discriminate.
Qed.

End Walk.

(** *** When the first walk succeeds *)

Section WalkSucceeds.
Variable t0 : fs.

Lemma foldM_succeeds {A} (f : A -> str -> M A) (ds : list str)
    (Inv : world -> Prop) :
  (forall a d w, In d ds -> Inv w ->
      exists a' w', f a d w = (Ok a', w') /\ Inv w') ->
  forall acc w, Inv w ->
    exists acc' w', foldM f ds acc w = (Ok acc', w') /\ Inv w'.
Proof.
  intros Hstep. induction ds as [|d ds IH]; intros acc w Hw.
  - exists acc, w. split; [reflexivity | assumption].
  - cbn [foldM]. unfold bind.
    destruct (Hstep acc d w (or_introl eq_refl) Hw) as [a [w1 [E H1]]].
    rewrite E. apply IH; [|assumption].
    intros a0 d0 w0 Hin. apply Hstep. right; exact Hin.
Qed.

Lemma walk_succeeds (fuel : nat) :
  forall top acc w,
    in_source (components top) -> grows t0 (tree w) ->
    unobstructed t0 (components top) ->
    lookup (tree w) (mirror (parent (components top))) = Some Dir ->
    0 < fuel -> depth t0 < fuel + List.length (components top) ->
    exists acc' w',
      walk_for fuel top collect_body acc w = (Ok acc', w')
      /\ grows (tree w) (tree w').
Proof.
  induction fuel as [|fuel IH]; intros top acc w Hsrc G Hfree Hpar Hpos Hfuel;
    [lia|].
  cbn [walk_for].
  destruct (scandir (tree w) top) as [[dirs files]|] eqn:Es;
    [|exists acc, w; split; [reflexivity | apply grows_refl]].
  pose proof (in_source_nonempty _ Hsrc) as Hne.
  assert (Hq0 : lookup t0 (components top) = Some Dir).
  { apply scandir_is_dir in Es.
    rewrite resolve_components in Es by assumption.
    now rewrite (grows_lookup_source _ _ _ G Hsrc) in Es. }
  unfold bind. rewrite collect_body_eq.
  destruct (ensure_dir_succeeds (of_string "doc/api/" ++ top) (components top) w
              (components_mirror top)) as [w1 Ee].
  { right. rewrite parent_mirror by assumption. exact Hpar. }
  rewrite Ee.
  destruct (ensure_dir_post _ _ _ _ (components_mirror top) Ee)
    as [G1 [Hq Hq']].
  assert (G01 : grows t0 (tree w1)) by (eapply grows_trans; eauto).
  assert (Hm : lookup (tree w1) (mirror (components top)) = Some Dir).
  { destruct (lookup (tree w) (mirror (components top))) as [x|] eqn:E;
      [|now apply Hq'].
    rewrite (grows_lookup_some _ _ _ _ G1 E). f_equal.
    destruct (grows_lookup_inv _ _ _ _ G E) as [H0|[_ ->]]; [|reflexivity].
    destruct (Hfree _ (reach_here _ _ Hq0)) as [H|H]; congruence. }
  rewrite (grows_scandir_source _ _ _ G Hsrc) in Es.
  destruct (foldM_succeeds
              (fun a d => walk_for fuel (path_join top d) collect_body a) dirs
              (fun w' => grows (tree w1) (tree w')))
    with (acc := collect_names top files acc) (w := w1)
    as [acc' [w' [Ef G2]]].
  - intros a d w2 Hin G12.
    destruct (scandir_dirs_In _ _ _ _ _ Es Hin) as [Hv [x Hx]].
    apply depth_In in Hx. rewrite length_app in Hx. simpl in Hx.
    destruct (IH (path_join top d) a w2) as [a' [w3 [E3 G3]]].
    + rewrite components_join by assumption. now apply in_source_snoc.
    + eapply grows_trans; eauto.
    + rewrite components_join by assumption.
      intros d' Hd'. apply Hfree. eapply reach_step; eauto.
    + rewrite components_join, parent_snoc by assumption.
      eapply grows_lookup_some; eauto.
    + lia.
    + rewrite components_join, length_app by assumption. simpl. lia.
    + exists a', w3. split; [assumption | eapply grows_trans; eauto].
  - apply grows_refl.
  - exists acc', w'. split; [assumption | eapply grows_trans; eauto].
Qed.

End WalkSucceeds.

(** *** The first stage as a whole *)

Lemma components_doc_api : components (of_string "doc/api") = mirror [].
Proof. reflexivity. Qed.

Lemma components_collections : components (of_string "collections") = source_root.
Proof. reflexivity. Qed.

Lemma source_root_in_source : in_source source_root.
Proof. exists []. reflexivity. Qed.

Lemma collector_eq (fuel : nat) (w : world) :
  collector fuel w
  = match ensure_dir (of_string "doc/api") w with
    | (Ok _, w1) => walk_for fuel (of_string "collections") collect_body [] w1
    | (Raise e, w1) => (Raise e, w1)
    end.
Proof. reflexivity. Qed.

Lemma collector_post (fuel : nat) (t : fs) (files : list str) (w' : world) :
  collector fuel (init_world t) = (Ok files, w') ->
  grows t (tree w') /\ mirrored_below t source_root w'.
Proof.
  rewrite collector_eq.
  destruct (ensure_dir (of_string "doc/api") (init_world t)) as [[[]|e] w1] eqn:Ee;
    [|discriminate].
  destruct (ensure_dir_post _ _ _ _ components_doc_api Ee) as [G1 _].
  intros Hw.
  destruct (walk_post t fuel _ _ _ _ _
              (eq_ind_r in_source source_root_in_source components_collections)
              G1 Hw) as [G2 Hm].
  split; [eapply grows_trans; eauto | exact Hm].
Qed.

Lemma collector_succeeds (fuel : nat) (t : fs) :
  depth t < fuel ->
  lookup t (mirror []) = Some Dir
  \/ (lookup t (mirror []) = None /\ lookup t [of_string "doc"] = Some Dir) ->
  unobstructed t source_root ->
  exists files w', collector fuel (init_world t) = (Ok files, w').
Proof.
  intros Hfuel Hout Hfree. rewrite collector_eq.
  destruct (ensure_dir_succeeds (of_string "doc/api") [] (init_world t)
              components_doc_api) as [w1 Ee].
  { destruct Hout as [H|[_ H]]; [left; cbn [tree init_world]; congruence|].
    right. exact H. }
  rewrite Ee.
  destruct (ensure_dir_post _ _ _ _ components_doc_api Ee) as [G1 [_ Hq']].
  assert (Hm : lookup (tree w1) (mirror []) = Some Dir).
  { destruct Hout as [H|[H _]]; [|now apply Hq'].
    eapply grows_lookup_some; eauto. }
  destruct (walk_succeeds t fuel (of_string "collections") [] w1)
    as [files [w' [E _]]].
  - rewrite components_collections. apply source_root_in_source.
  - exact G1.
  - rewrite components_collections. exact Hfree.
  - rewrite components_collections. exact Hm.
  - lia.
  - lia.
  - eauto.
Qed.

(** Without a directory at the scanned root the walk yields nothing. *)
Lemma collector_without_root (fuel : nat) (t : fs) :
  0 < fuel ->
  lookup t source_root <> Some Dir ->
  lookup t (mirror []) <> None \/ lookup t [of_string "doc"] = Some Dir ->
  exists w', collector fuel (init_world t) = (Ok [], w').
Proof.
  intros Hfuel Hroot Hout. rewrite collector_eq.
  destruct (ensure_dir_succeeds (of_string "doc/api") [] (init_world t)
              components_doc_api Hout) as [w1 Ee].
  rewrite Ee.
  destruct (ensure_dir_post _ _ _ _ components_doc_api Ee) as [G1 _].
  destruct fuel as [|fuel]; [lia|]. cbn [walk_for].
  rewrite (grows_scandir_source t (tree w1) (of_string "collections") G1)
    by (rewrite components_collections; apply source_root_in_source).
  unfold scandir.
  rewrite resolve_components, components_collections by discriminate.
  destruct (lookup t source_root) as [[c|]|]; try (eexists; reflexivity).
  contradiction Hroot; reflexivity.
Qed.

(** *** What each stage appends to the log *)

Lemma emits_ensure_dir (P : event -> Prop) (s : str) :
  P (EMkdir s) -> emits P (ensure_dir s).
Proof.
  intros HP. unfold ensure_dir. apply emits_bind; [auto with emits|].
  intros [|]; simpl; [auto with emits | now apply emits_mkdir].
Qed.

Lemma emits_collector (fuel : nat) : emits is_mkdir (collector fuel).
Proof.
  unfold collector. apply emits_bind.
  - apply emits_ensure_dir. eexists; reflexivity.
  - intros _. apply emits_walk_for with (R := fun _ => True); auto.
    intros acc top dirs files _ _. unfold collect_body.
    apply emits_bind; [|auto with emits].
    apply emits_ensure_dir. eexists; reflexivity.
Qed.

Lemma startswith_app (s x pre : str) :
  startswith s pre = true -> startswith (s ++ x) pre = true.
Proof.
  revert s; induction pre as [|p pre IH]; intros s; [reflexivity|].
  destruct s as [|c s]; simpl; [discriminate|].
  rewrite !andb_true_iff. intros [H1 H2]. split; [assumption | now apply IH].
Qed.

Lemma startswith_join (top d pre : str) :
  valid_name d = true -> startswith top pre = true ->
  startswith (path_join top d) pre = true.
Proof.
  intros Hd Htop. unfold path_join.
  destruct (valid_name_slash_free d Hd) as [Hne Hsf].
  assert (Hs : startswith d [SLASH] = false).
  { destruct d as [|c d]; [contradiction|]. simpl in *.
    apply orb_false_iff in Hsf. destruct Hsf as [Hc' _].
    rewrite N.eqb_sym in Hc'. rewrite Hc'. reflexivity. }
  rewrite Hs.
  destruct (match top with [] => true | _ :: _ => endswith top [SLASH] end);
    now apply startswith_app.
Qed.

Section Stages.
Variable run_process : list str -> fs -> Z * fs.

Lemma export_and_doc_log (path : str) (w : world) :
  (log (snd (export_and_doc run_process path w)) = log w
   /\ fst (export_and_doc run_process path w) <> Ok tt)
  \/ log (snd (export_and_doc run_process path w)) = log w ++ export_events path.
Proof.
  unfold export_and_doc, export, bind.
  destruct (emits_open_w (fun _ => False) (of_string "doc/api/" ++ path) w)
    as [e1 [E1 F1]].
  destruct e1; [|inversion F1; contradiction]. rewrite app_nil_r in E1.
  destruct (open_w (of_string "doc/api/" ++ path) w) as [[[]|x] w1];
    cbn [snd fst] in *; [|left; split; [assumption | discriminate]].
  destruct (emits_read_text (fun _ => False) path w1) as [e2 [E2 F2]].
  destruct e2; [|inversion F2; contradiction]. rewrite app_nil_r in E2.
  destruct (read_text path w1) as [[data|x] w2];
    cbn [snd fst] in *; [|left; split; [congruence | discriminate]].
  unfold write_text, check_call. cbn [tree log].
  destruct (run_process _ _) as [code t'].
  right. destruct (Z.eqb code 0); cbn [snd log];
    rewrite E2, E1, <- app_assoc; reflexivity.
Qed.

Lemma emits_stage2 (files : list str) :
  emits (fun e => ~ is_rst_call e) (for_each files (export_and_doc run_process)).
Proof.
  apply emits_for_each. intros path _. unfold export_and_doc, export.
  emits_seq.
  - apply emits_write_text. intros [p H]; discriminate H.
  - apply emits_check_call. intros [p H]; discriminate H.
Qed.

Lemma below_doc_join (top d : str) :
  below_doc top -> valid_name d = true -> below_doc (path_join top d).
Proof. intros H Hd. now apply startswith_join. Qed.

Lemma emits_rst_walk (fuel : nat) :
  emits late_event (walk_for fuel (of_string "doc/") (rst_body run_process) tt).
Proof.
  apply emits_walk_for with (R := below_doc);
    [exact below_doc_join | | reflexivity].
  intros [] top dirs files Htop Hfiles. unfold rst_body.
  apply emits_for_each. intros name Hname.
  rewrite Forall_forall in Hfiles.
  destruct (endswith (path_join top name) (of_string ".rst")) eqn:Eext;
    [|apply emits_ret].
  destruct (contains (path_join top name) [HASH]) eqn:Ehash;
    [apply emits_ret|]. cbn [negb andb].
  apply emits_check_call. split.
  - intros [f H]; discriminate H.
  - intros p [= <-]. repeat split; try assumption.
    apply below_doc_join; auto.
Qed.

(** In a directory the walk yields, every markup file is converted,
    unless a conversion fails before its turn. *)
Lemma rst_body_converts (top : str) (dirs files : list str) :
  forall w w', rst_body run_process tt (top, dirs, files) w = (Ok tt, w') ->
  forall name, In name files ->
    endswith (path_join top name) (of_string ".rst") = true ->
    contains (path_join top name) [HASH] = false ->
    In (ECall (nim_rst2html_argv (path_join top name))) (log w').
Proof.
  unfold rst_body, for_each.
  set (f := fun name0 : str =>
              if endswith (path_join top name0) (of_string ".rst")
                 && negb (contains (path_join top name0) [HASH])
              then check_call run_process (nim_rst2html_argv (path_join top name0))
              else ret tt).
  assert (Hf : forall x, emits (fun _ => True) (f x)).
  { intros x. unfold f.
    destruct (endswith _ _ && negb (contains _ _));
      [now apply emits_check_call | apply emits_ret]. }
  induction files as [|n files IH]; intros w w' Hrun name Hin Hext Hhash;
    [contradiction|].
  cbn [foldM] in Hrun. unfold bind in Hrun.
  destruct (f n w) as [[[]|e] w1] eqn:E1; [|discriminate Hrun].
  destruct Hin as [->|Hin]; [|eapply IH; eauto].
  assert (H1 : In (ECall (nim_rst2html_argv (path_join top name))) (log w1)).
  { unfold f in E1. rewrite Hext, Hhash in E1. cbn [negb andb] in E1.
    unfold check_call in E1.
    destruct (run_process _ (tree w)) as [code t'].
    destruct (Z.eqb code 0); [|discriminate E1].
    injection E1 as <-. cbn [log]. apply in_or_app. right. left. reflexivity. }
  destruct (emits_foldM (fun _ => True) (fun (_ : unit) x => f x) files
              (fun _ x _ => Hf x) tt w1) as [evs [El _]].
  assert (El' : log w' = log w1 ++ evs).
  { etransitivity; [|exact El].
    symmetry. exact (f_equal (fun r => log (snd r)) Hrun). }
  rewrite El'. apply in_or_app. left. exact H1.
Qed.

Lemma emits_html_walk (fuel : nat) :
  emits late_event (walk_for fuel (of_string "doc/") html_body tt).
Proof.
  apply emits_walk_for with (R := fun _ => True); auto.
  intros [] top dirs files _ _. unfold html_body.
  apply emits_for_each. intros name _.
  destruct (endswith _ _ && negb (contains _ _)); [|auto with emits].
  emits_seq. apply emits_write_text. split.
  - intros [f H]; discriminate H.
  - intros p H; discriminate H.
Qed.

Lemma emits_main (fuel : nat) :
  emits_then (fun e => ~ is_rst_call e) late_event (main run_process fuel).
Proof.
  unfold main. apply emits_then_bind.
  - eapply emits_weaken; [|apply emits_collector].
    intros e [p ->] [q H]; discriminate H.
  - intros files. apply emits_then_bind; [apply emits_stage2|].
    intros _. apply emits_then_right.
    apply emits_bind; [apply emits_rst_walk | intros _; apply emits_html_walk].
Qed.

End Stages.

(** *** Exporting one file *)

Lemma universal_newlines_id (s : str) :
  ~ In CR s -> universal_newlines s = s.
Proof.
  induction s as [|c s IH]; intros H; [reflexivity|].
  cbn [universal_newlines].
  destruct (N.eqb_spec c CR) as [->|Hc]; [exfalso; apply H; left; reflexivity|].
  rewrite IH; [reflexivity|]. intros Hin; apply H; right; exact Hin.
Qed.

Lemma mirror_neq (q : path) : mirror q <> q.
Proof.
  intros H. apply (f_equal (@List.length str)) in H. simpl in H. lia.
Qed.

Lemma open_w_ok (s : str) (w : world) :
  components s <> [] ->
  lookup (tree w) (components s) <> Some Dir ->
  node_at (tree w) (parent (components s)) = Some Dir ->
  open_w s w = (Ok tt, mkWorld (set_file (tree w) (components s) []) (log w)).
Proof.
  intros Hne Hnd Hpar. unfold open_w.
  destruct s as [|c s]; [contradiction Hne; reflexivity|].
  rewrite Hpar, resolve_components by assumption.
  destruct (lookup (tree w) (components (c :: s))) as [[c'|]|];
    [reflexivity | contradiction Hnd; reflexivity | reflexivity].
Qed.

(** A file is only opened for writing in a directory that exists. *)
Lemma open_w_parent (s : str) (w w1 : world) :
  open_w s w = (Ok tt, w1) ->
  node_at (tree w) (parent (components s)) = Some Dir.
Proof.
  unfold open_w. destruct s as [|c s]; [discriminate|].
  destruct (node_at (tree w) (parent (components (c :: s)))) as [[c'|]|];
    [discriminate | reflexivity | discriminate].
Qed.

Lemma export_parent (path : str) (w w1 : world) :
  export path w = (Ok tt, w1) ->
  node_at (tree w) (parent (mirror (components path))) = Some Dir.
Proof.
  unfold export, bind.
  destruct (open_w (of_string "doc/api/" ++ path) w) as [[[]|e] w0] eqn:E;
    [|discriminate].
  intros _. apply open_w_parent in E. now rewrite components_mirror in E.
Qed.

Lemma resolve_file (t : fs) (s data : str) :
  resolve t s = Some (File data) ->
  components s <> [] /\ lookup t (components s) = Some (File data).
Proof.
  destruct s as [|c s]; [discriminate|]. unfold resolve, node_at.
  destruct (components (c :: s)); [discriminate|].
  intros H. split; [discriminate | exact H].
Qed.

Lemma export_result (w : world) (path data : str) :
  resolve (tree w) path = Some (File data) ->
  node_at (tree w) (parent (mirror (components path))) = Some Dir ->
  lookup (tree w) (mirror (components path)) <> Some Dir ->
  export path w
  = (Ok tt,
     mkWorld (set_file (set_file (tree w) (mirror (components path)) [])
                       (mirror (components path)) (universal_newlines data))
             (log w ++ [EWrite (of_string "doc/api/" ++ path)])).
Proof.
  intros Hsrc Hpar Hnd. destruct (resolve_file _ _ _ Hsrc) as [Hne Hl].
  unfold export, bind.
  rewrite open_w_ok; rewrite ?components_mirror; try assumption;
    [|apply mirror_nonempty].
  unfold read_text. cbn [tree].
  rewrite resolve_components by assumption.
  rewrite lookup_set_file_other by apply mirror_neq.
  rewrite Hl. unfold write_text. cbn [tree log].
  rewrite components_mirror. reflexivity.
Qed.

(** *** A first run: nothing below the output root yet *)

Lemma fresh_output_lookup (t : fs) (d : path) :
  fresh_output t = true -> lookup t (mirror d) = None.
Proof.
  intros H. destruct (lookup t (mirror d)) as [x|] eqn:E; [|reflexivity].
  apply lookup_In in E. unfold fresh_output in H.
  rewrite forallb_forall in H. apply H in E. discriminate E.
Qed.

Lemma fresh_output_unobstructed (t : fs) (q : path) :
  fresh_output t = true -> unobstructed t q.
Proof. intros H d _. left. now apply fresh_output_lookup. Qed.

Lemma dirs_below_output_unobstructed (t : fs) (q : path) :
  forallb (fun e => negb (below_output_root (fst e)) || is_dir (snd e)) t = true ->
  unobstructed t q.
Proof.
  intros H d _. destruct (lookup t (mirror d)) as [[c|]|] eqn:E;
    [exfalso | now right | now left].
  apply lookup_In in E. rewrite forallb_forall in H. apply H in E.
  discriminate E.
Qed.

(** *** Without the output root *)

Lemma collector_without_output_root (fuel : nat) (t : fs) :
  lookup t (mirror []) = None ->
  lookup t [of_string "doc"] <> Some Dir ->
  collector fuel (init_world t)
  = (Raise match lookup t [of_string "doc"] with
           | Some (File _) => NotADirectoryError
           | _ => FileNotFoundError
           end, init_world t).
Proof.
  intros Hapi Hdoc. rewrite collector_eq, ensure_dir_eq.
  rewrite (resolve_of_mirror _ _ [] components_doc_api). cbn [tree init_world].
  destruct (lookup t (mirror [])) as [x|] eqn:E.
  { exfalso. clear -Hapi E. unfold path, str, char in *. congruence. }
  unfold mkdir, missing.
  rewrite (resolve_of_mirror _ _ [] components_doc_api). cbn [tree init_world].
  rewrite E.
  change (of_string "doc/api") with (100%N :: of_string "oc/api").
  cbv iota beta.
  change (node_at t (parent (components (100%N :: of_string "oc/api"))))
    with (lookup t [of_string "doc"]).
  destruct (lookup t [of_string "doc"]) as [[c|]|];
    [reflexivity | contradiction Hdoc; reflexivity | reflexivity].
Qed.

End ScriptFacts.

(** ** Properties of the HTML post-processor *)

Section PostprocessProperties.
Import Html Os Builddocs TextSpec RunSpec TextFacts HtmlFacts.

(** C1 (defect in the code): a line equal to the closing tag [</style>]
    is not omitted.  The scanner clears the flag on that line and then,
    the flag being clear, appends the line: whenever the input has such a
    line, so has the output. *)
Theorem closing_tag_is_emitted (data : str) :
  In STYLE_CLOSE (splitlines data) ->
  In STYLE_CLOSE (postprocess_lines (splitlines data))
  /\ forall st, step st STYLE_CLOSE = mkState (out st ++ [STYLE_CLOSE]) false.
Proof.
  intros H. split; [now apply run_emits_close | exact step_close].
Qed.

(** On the scenario of the specification the output is the snippet, the
    closing tag and the paragraph, not the snippet and the paragraph. *)
Lemma closing_tag_is_emitted_witness :
  (In STYLE_CLOSE (postprocess_lines (splitlines scenario_html))
   /\ forall st, step st STYLE_CLOSE = mkState (out st ++ [STYLE_CLOSE]) false)
  /\ postprocess_lines (splitlines scenario_html)
     = [STYLE; STYLE_CLOSE; of_string "<p>hi</p>"]
  /\ postprocess_html scenario_html
     = STYLE ++ [LF] ++ STYLE_CLOSE ++ [LF] ++ of_string "<p>hi</p>"
  /\ postprocess_html scenario_html <> STYLE ++ [LF] ++ of_string "<p>hi</p>".
Proof.
  split; [|split; [|split]].
  - apply (closing_tag_is_emitted scenario_html).
    vm_compute. right; right; left; reflexivity.
  - vm_compute; reflexivity.
  - vm_compute; reflexivity.
  - vm_compute; discriminate.
Defined.

(** C2 (defect in the code): for an input with exactly one well-formed
    style section, the opening tag and the body lines are replaced by
    one snippet, but the closing tag stays in the output, after the
    snippet. *)
Theorem one_block_keeps_closing_tag (data : str) (pre body post : list str) :
  splitlines data = pre ++ STYLE_OPEN :: body ++ STYLE_CLOSE :: post ->
  ~ In STYLE_OPEN pre -> ~ In STYLE_CLOSE pre ->
  ~ In STYLE_OPEN body -> ~ In STYLE_CLOSE body ->
  ~ In STYLE_OPEN post -> ~ In STYLE_CLOSE post ->
  postprocess_html data = join [LF] (pre ++ STYLE :: STYLE_CLOSE :: post).
Proof.
  intros Hsplit Hpre _ Hbody Hbody' Hpost _. unfold postprocess_html.
  rewrite Hsplit, one_block_lines by assumption. reflexivity.
Qed.

Lemma one_block_keeps_closing_tag_witness :
  postprocess_html page_html
  = join [LF] ([of_string "<head>"] ++ STYLE :: STYLE_CLOSE ::
               [of_string "</head>"; of_string "<p>text</p>"]).
Proof.
  apply (one_block_keeps_closing_tag page_html [of_string "<head>"]
           [of_string "h1{}"; of_string "h2{}"]
           [of_string "</head>"; of_string "<p>text</p>"]);
    try (vm_compute; reflexivity);
    vm_compute; intuition discriminate.
Defined.

(** C6, as stated, fails: a text with no style tag at all whose lines are
    separated by a form feed comes out with LF in its place, which is
    neither the input nor the input without a final newline. *)
Lemma passthrough_rewrites_form_feed :
  ~ In STYLE_OPEN (splitlines form_feed_html)
  /\ ~ In STYLE_CLOSE (splitlines form_feed_html)
  /\ postprocess_html form_feed_html = of_string "a" ++ [LF] ++ of_string "b"
  /\ postprocess_html form_feed_html <> form_feed_html
  /\ postprocess_html form_feed_html <> strip_final_newline form_feed_html.
Proof.
  repeat split; try (vm_compute; reflexivity); try (vm_compute; discriminate);
    vm_compute; intros [H|[H|[]]]; discriminate H.
Qed.

(** C6, amended: for an input with no line equal to the opening tag and no
    line equal to the closing tag, the output is the lines of the input
    joined with LF; when LF is the only line boundary of the input, that
    is the input without its final newline, if it ends with one. *)
Theorem postprocess_html_passthrough (data : str) :
  ~ In STYLE_OPEN (splitlines data) ->
  ~ In STYLE_CLOSE (splitlines data) ->
  postprocess_html data = join [LF] (splitlines data)
  /\ (only_lf data -> postprocess_html data = strip_final_newline data).
Proof.
  intros Ho _. unfold postprocess_html.
  rewrite postprocess_lines_clear by assumption.
  split; [reflexivity | apply join_splitlines].
Qed.

Lemma postprocess_html_passthrough_witness :
  postprocess_html blank_tail_html = join [LF] (splitlines blank_tail_html)
  /\ postprocess_html blank_tail_html = strip_final_newline blank_tail_html.
Proof.
  destruct (postprocess_html_passthrough blank_tail_html) as [Hjoin Hstrip].
  - vm_compute; intuition discriminate.
  - vm_compute; intuition discriminate.
  - split; [exact Hjoin|]. apply Hstrip.
    apply only_lf_forallb. vm_compute; reflexivity.
Defined.

(** C7, as stated, fails: a second pass over the output of the first
    removes one more final newline; and a second run of the script, the
    tools leaving the tree as it is, changes a page the first run had
    already processed. *)
Lemma postprocess_html_not_idempotent :
  postprocess_html blank_tail_html = of_string "<p>hi</p>" ++ [LF]
  /\ postprocess_html (postprocess_html blank_tail_html) = of_string "<p>hi</p>"
  /\ postprocess_html (postprocess_html blank_tail_html)
     <> postprocess_html blank_tail_html
  /\ (let w1 := snd (main quiet_tool 4 (init_world tree_static_html)) in
      let w2 := snd (main quiet_tool 4 (init_world (tree w1))) in
      fst (main quiet_tool 4 (init_world tree_static_html)) = Ok tt
      /\ fst (main quiet_tool 4 (init_world (tree w1))) = Ok tt
      /\ resolve (tree w1) (of_string "doc/index.html")
         = Some (File (of_string "<p>hi</p>" ++ [LF]))
      /\ resolve (tree w2) (of_string "doc/index.html")
         = Some (File (of_string "<p>hi</p>"))
      /\ tree w2 <> tree w1).
Proof.
  repeat split; try (vm_compute; reflexivity); vm_compute; discriminate.
Qed.

(** C7, amended: for every text, post-processing the output of the
    post-processor again yields that output without its final newline,
    if it ends with one, and unchanged otherwise; so the second pass
    changes nothing exactly when the output of the first does not end
    with a newline. *)
Theorem postprocess_html_twice (x : str) :
  postprocess_html (postprocess_html x)
  = strip_final_newline (postprocess_html x)
  /\ (postprocess_html (postprocess_html x) = postprocess_html x
      <-> endswith (postprocess_html x) [LF] = false).
Proof.
  assert (E : postprocess_html (postprocess_html x)
              = strip_final_newline (postprocess_html x)).
  { pose proof (postprocess_lines_emitted x) as He.
    unfold postprocess_html at 1.
    rewrite postprocess_lines_clear.
    - apply join_splitlines. unfold postprocess_html. now apply join_only_lf.
    - unfold postprocess_html. now apply splitlines_join_no_open. }
  split; [exact E|]. rewrite E. apply strip_fixed.
Qed.

(** C10: when a line equal to the opening tag is followed by no line
    equal to the closing tag, the snippet is appended for it and none of
    the lines after it reaches the output; the output ends with the
    snippet, repeated once more for each later opening tag, and the flag
    is still set at the end. *)
Theorem unclosed_style_drops_rest (data : str) (pre rest : list str) :
  splitlines data = pre ++ STYLE_OPEN :: rest ->
  ~ In STYLE_CLOSE rest ->
  postprocess_html data
  = join [LF] (postprocess_lines pre ++ STYLE :: repeat STYLE (count_open rest))
  /\ css (run init (splitlines data)) = true.
Proof.
  intros Hsplit Hrest. unfold postprocess_html, postprocess_lines.
  rewrite Hsplit, run_app, run_cons, step_open.
  rewrite (run_suppressed rest Hrest) by reflexivity.
  cbn [out css]. now rewrite <- app_assoc.
Qed.

Lemma unclosed_style_drops_rest_witness :
  postprocess_html unclosed_html
  = join [LF] (postprocess_lines [of_string "<p>a</p>"] ++
               STYLE :: repeat STYLE
                 (count_open [of_string "body{}"; of_string "<p>lost</p>"]))
  /\ css (run init (splitlines unclosed_html)) = true.
Proof.
  apply (unclosed_style_drops_rest unclosed_html [of_string "<p>a</p>"]
           [of_string "body{}"; of_string "<p>lost</p>"]).
  - vm_compute; reflexivity.
  - vm_compute; intros [H|[H|[]]]; discriminate H.
Defined.

End PostprocessProperties.

(** ** Properties of the pipeline *)

Section PipelineProperties.
Import Os Builddocs RunSpec OsFacts LogFacts ScriptFacts.
Local Open Scope os_scope.

(** C3, as stated, fails: without the scanned root the first stage does
    not raise; the walk yields nothing and the stage returns the empty
    list of source files. *)
Lemma collector_ignores_missing_root :
  resolve tree_without_root (of_string "collections") = None
  /\ fst (collector 1 (init_world tree_without_root)) = Ok []
  /\ fst (collector 1 (init_world tree_without_root)) <> Raise FileNotFoundError.
Proof.
  split; [reflexivity | split; [vm_compute; reflexivity | vm_compute; discriminate]].
Qed.

(** C3, amended: a missing scanned root is not an error of the first
    stage.  Without a directory at the scanned root the stage returns
    the empty list whenever [doc/api] is there or can be made in the
    directory [doc].  When [doc/api] is absent and [doc] is not a
    directory, the stage fails in [os.mkdir], before the walk starts, and
    so in the same way with the scanned root and without it: this is its
    only failure without the root.  With the root, when the output root
    is a directory or can be made, and no regular file sits at the
    mirrored path of a source directory, the stage returns its list of
    source files, whether the directories of the source tree are empty
    or not. *)
Theorem collector_tolerates_source (fuel : nat) (t : fs) :
  depth t < fuel ->
  (lookup t source_root <> Some Dir ->
   lookup t (mirror []) <> None \/ lookup t [of_string "doc"] = Some Dir ->
   exists w', collector fuel (init_world t) = (Ok [], w'))
  /\ (lookup t (mirror []) = None ->
      lookup t [of_string "doc"] <> Some Dir ->
      collector fuel (init_world t)
      = (Raise match lookup t [of_string "doc"] with
               | Some (File _) => NotADirectoryError
               | _ => FileNotFoundError
               end, init_world t))
  /\ (output_root_ready t ->
      unobstructed t source_root ->
      exists files w',
        collector fuel (init_world t) = (Ok files, w')
        /\ (lookup t source_root <> Some Dir -> files = [])).
Proof.
  intros Hfuel. split; [|split].
  - intros Hroot Hout. apply collector_without_root; [lia | assumption..].
  - apply collector_without_output_root.
  - intros Hout Hfree.
    destruct (collector_succeeds fuel t Hfuel Hout Hfree) as [files [w' E]].
    exists files, w'. split; [exact E|]. intros Hroot.
    destruct (collector_without_root fuel t) as [w'' E'];
      [lia | assumption | |].
    + destruct Hout as [H|[_ H]]; [left; congruence | right; exact H].
    + congruence.
Qed.

Lemma collector_tolerates_source_witness :
  (exists w', collector 2 (init_world tree_without_root) = (Ok [], w'))
  /\ collector 1 (init_world []) = (Raise FileNotFoundError, init_world [])
  /\ (exists files w',
      collector 2 (init_world tree_without_root) = (Ok files, w')
      /\ (lookup tree_without_root source_root <> Some Dir -> files = []))
  /\ (exists files w',
      collector 4 (init_world tree_with_empty_dirs) = (Ok files, w')
      /\ (lookup tree_with_empty_dirs source_root <> Some Dir -> files = [])).
Proof.
  split; [|split; [|split]].
  - apply (collector_tolerates_source 2 tree_without_root).
    + vm_compute; lia.
    + discriminate.
    + right. reflexivity.
  - apply (collector_tolerates_source 1 []).
    + vm_compute; lia.
    + reflexivity.
    + discriminate.
  - apply (collector_tolerates_source 2 tree_without_root).
    + vm_compute; lia.
    + right. split; reflexivity.
    + apply fresh_output_unobstructed. reflexivity.
  - apply (collector_tolerates_source 4 tree_with_empty_dirs).
    + vm_compute; lia.
    + right. split; reflexivity.
    + apply fresh_output_unobstructed. reflexivity.
Defined.

(** C8, as stated, fails: with a regular file at the mirrored path of
    the scanned root, [os.path.exists] holds, [os.mkdir] is skipped, the
    first stage and the whole run return, and the scanned root has no
    directory under the output root. *)
Lemma mirror_blocked_by_file :
  reach tree_blocked source_root source_root
  /\ fst (collector 2 (init_world tree_blocked)) = Ok []
  /\ fst (main quiet_tool 3 (init_world tree_blocked)) = Ok tt
  /\ lookup (tree (snd (main quiet_tool 3 (init_world tree_blocked))))
       (mirror source_root) = Some (File (of_string "x"))
  /\ lookup (tree (snd (main quiet_tool 3 (init_world tree_blocked))))
       (mirror source_root) <> Some Dir.
Proof.
  split; [apply reach_here; reflexivity|].
  repeat split; try (vm_compute; reflexivity); vm_compute; discriminate.
Qed.

(** C8, amended: when the first stage has returned, a directory of the
    source tree has a directory at its mirrored path, made by the stage
    or there before, unless a regular file was at that path when the
    stage started; such a file is left as it is.  So in a tree with no
    regular file at the mirrored path of a source directory, every
    directory of the source tree has its mirrored directory.  The stage
    has only made directories, and the stages that write files start
    from the state it leaves; a copy is only written into a directory
    that exists; a mirrored path that exists is not made again, without
    an error. *)
Theorem collector_mirrors_directories run_process (fuel : nat) (t : fs)
    (files : list str) (w' : world) :
  collector fuel (init_world t) = (Ok files, w') ->
  (forall d, reach t source_root d ->
      match lookup t (mirror d) with
      | Some (File c) => lookup (tree w') (mirror d) = Some (File c)
      | _ => lookup (tree w') (mirror d) = Some Dir
      end)
  /\ (unobstructed t source_root ->
      forall d, reach t source_root d ->
        lookup (tree w') (mirror d) = Some Dir)
  /\ Forall is_mkdir (log w')
  /\ main run_process fuel (init_world t)
     = (for_each files (export_and_doc run_process) ;;
        walk_for fuel (of_string "doc/") (rst_body run_process) tt ;;
        walk_for fuel (of_string "doc/") html_body tt) w'
  /\ (forall path w w1, export path w = (Ok tt, w1) ->
        node_at (tree w) (parent (mirror (components path))) = Some Dir)
  /\ (forall d w, resolve (tree w) d <> None -> ensure_dir d w = (Ok tt, w)).
Proof.
  intros E. destruct (collector_post fuel t files w' E) as [G Hm].
  assert (Hall : forall d, reach t source_root d ->
            match lookup t (mirror d) with
            | Some (File c) => lookup (tree w') (mirror d) = Some (File c)
            | _ => lookup (tree w') (mirror d) = Some Dir
            end).
  { intros d Hd. specialize (Hm d Hd).
    destruct (lookup t (mirror d)) as [[c|]|] eqn:El.
    - exact (grows_lookup_some _ _ _ _ G El).
    - exact (grows_lookup_some _ _ _ _ G El).
    - destruct (lookup (tree w') (mirror d)) as [x|] eqn:El';
        [|contradiction].
      destruct (grows_lookup_inv _ _ _ _ G El') as [H|[_ H]];
        [congruence | now subst x]. }
  split; [exact Hall|].
  split; [|split; [|split; [|split; [exact export_parent|]]]].
  - intros Hfree d Hd. specialize (Hall d Hd).
    destruct (Hfree d Hd) as [H|H]; rewrite H in Hall; exact Hall.
  - destruct (emits_collector fuel (init_world t)) as [evs [El F]].
    rewrite E in El. cbn [snd log init_world app] in El. now rewrite El.
  - unfold main, bind at 1. rewrite E. reflexivity.
  - intros d w H. rewrite ensure_dir_eq.
    destruct (resolve (tree w) d); [reflexivity | contradiction H; reflexivity].
Qed.

Lemma collector_mirrors_directories_witness :
  lookup (tree (snd (collector 3 (init_world tree_rerun))))
    (mirror [p_collections; of_string "sub"]) = Some Dir
  /\ lookup (tree (snd (collector 3 (init_world tree_rerun))))
       (mirror [p_collections]) = Some Dir
  /\ Forall is_mkdir (log (snd (collector 3 (init_world tree_rerun)))).
Proof.
  destruct (collector_mirrors_directories quiet_tool 3 tree_rerun
              [of_string "collections/sub/b.nim"]
              (snd (collector 3 (init_world tree_rerun))))
    as [Hmirror [Hfree [Hlog _]]].
  - vm_compute; reflexivity.
  - split; [|split; [|exact Hlog]].
    + apply (Hmirror [p_collections; of_string "sub"]).
      apply (reach_step tree_rerun source_root (of_string "sub"));
        [reflexivity | reflexivity |].
      apply reach_here. reflexivity.
    + apply Hfree.
      * apply dirs_below_output_unobstructed. reflexivity.
      * apply reach_here. reflexivity.
Defined.

(** C4, as stated, fails: with two source files the first file is
    compiled before the second file is exported. *)
Lemma export_and_compile_interleave :
  log (snd (main quiet_tool 3 (init_world tree_two_files)))
  = [EMkdir (of_string "doc/api");
     EMkdir (of_string "doc/api/collections");
     EWrite (of_string "doc/api/collections/a.nim");
     ECall (nim_doc_argv (of_string "doc/api/collections/a.nim"));
     EWrite (of_string "doc/api/collections/b.nim");
     ECall (nim_doc_argv (of_string "doc/api/collections/b.nim"));
     ECall (nim_rst2html_argv (of_string "doc/index.rst"))]
  /\ ~ ordered_before is_export is_doc_call
       (log (snd (main quiet_tool 3 (init_world tree_two_files)))).
Proof.
  assert (E : log (snd (main quiet_tool 3 (init_world tree_two_files)))
              = [EMkdir (of_string "doc/api");
                 EMkdir (of_string "doc/api/collections");
                 EWrite (of_string "doc/api/collections/a.nim");
                 ECall (nim_doc_argv (of_string "doc/api/collections/a.nim"));
                 EWrite (of_string "doc/api/collections/b.nim");
                 ECall (nim_doc_argv (of_string "doc/api/collections/b.nim"));
                 ECall (nim_rst2html_argv (of_string "doc/index.rst"))])
    by (vm_compute; reflexivity).
  split; [exact E|]. rewrite E. intros H.
  specialize (H 4 3 (EWrite (of_string "doc/api/collections/b.nim"))
                (ECall (nim_doc_argv (of_string "doc/api/collections/a.nim")))
                eq_refl eq_refl).
  assert (4 < 3); [|lia]. apply H.
  - exists (of_string "collections/b.nim"). reflexivity.
  - exists (of_string "doc/api/collections/a.nim"). reflexivity.
Qed.

(** C4, amended: export and compilation alternate file by file.  The
    loop over the collected files appends, for each file in turn, the
    write of its copy and then the call of the documentation compiler on
    that copy; a run that stops early has appended a prefix of that. *)
Theorem export_and_compile_alternate run_process (files : list str) (w : world) :
  exists k,
    log (snd (for_each files (export_and_doc run_process) w))
    = log w ++ firstn k (flat_map export_events files)
    /\ (fst (for_each files (export_and_doc run_process) w) = Ok tt ->
        log (snd (for_each files (export_and_doc run_process) w))
        = log w ++ flat_map export_events files).
Proof.
  revert w. induction files as [|path files IH]; intros w.
  - exists 0. cbn [flat_map firstn]. rewrite app_nil_r. split; reflexivity.
  - unfold for_each in *. cbn [foldM]. unfold bind.
    destruct (export_and_doc_log run_process path w) as [[El Er]|El].
    + destruct (export_and_doc run_process path w) as [[[]|e] w1];
        [contradiction Er; reflexivity|].
      exists 0. cbn [snd fst] in *. rewrite app_nil_r.
      split; [exact El | discriminate].
    + destruct (export_and_doc run_process path w) as [[[]|e] w1];
        cbn [snd fst] in *.
      * destruct (IH w1) as [k [Ek Eok]]. exists (2 + k).
        split; [rewrite Ek, El, <- app_assoc; reflexivity|].
        intros Hok. rewrite (Eok Hok), El, <- app_assoc. reflexivity.
      * exists 2. split; [rewrite El; reflexivity | discriminate].
Qed.

Lemma export_and_compile_alternate_witness :
  log (snd (for_each [of_string "collections/a.nim"; of_string "collections/b.nim"]
              (export_and_doc quiet_tool)
              (snd (collector 3 (init_world tree_two_files)))))
  = log (snd (collector 3 (init_world tree_two_files)))
    ++ flat_map export_events
         [of_string "collections/a.nim"; of_string "collections/b.nim"].
Proof.
  destruct (export_and_compile_alternate quiet_tool
              [of_string "collections/a.nim"; of_string "collections/b.nim"]
              (snd (collector 3 (init_world tree_two_files))))
    as [k [_ Hok]].
  apply Hok. vm_compute; reflexivity.
Defined.

(** C5, as stated, fails: a source file with CR LF line ends is exported
    with LF line ends. *)
Lemma export_rewrites_line_ends :
  resolve tree_crlf (of_string "collections/a.nim")
  = Some (File (of_string "x" ++ [CR; LF] ++ of_string "y"))
  /\ fst (export (of_string "collections/a.nim") (init_world tree_crlf)) = Ok tt
  /\ resolve (tree (snd (export (of_string "collections/a.nim") (init_world tree_crlf))))
       (of_string "doc/api/collections/a.nim")
     = Some (File (of_string "x" ++ [LF] ++ of_string "y"))
  /\ resolve (tree (snd (export (of_string "collections/a.nim") (init_world tree_crlf))))
       (of_string "doc/api/collections/a.nim")
     <> resolve tree_crlf (of_string "collections/a.nim").
Proof.
  repeat split; try (vm_compute; reflexivity). vm_compute; discriminate.
Qed.

(** C5, amended: reading a source file gives its text with CR LF and CR
    turned into LF; the export writes exactly the text read to the
    mirrored path and leaves the source file as it is, so that the copy
    equals the source when the source has no CR. *)
Theorem export_copies_text (w : world) (path data : str) :
  resolve (tree w) path = Some (File data) ->
  node_at (tree w) (parent (mirror (components path))) = Some Dir ->
  lookup (tree w) (mirror (components path)) <> Some Dir ->
  read_text path w = (Ok (universal_newlines data), w)
  /\ exists w',
    export path w = (Ok tt, w')
    /\ resolve (tree w') (of_string "doc/api/" ++ path)
       = Some (File (universal_newlines data))
    /\ resolve (tree w') path = Some (File data)
    /\ (~ In CR data ->
        resolve (tree w') (of_string "doc/api/" ++ path) = resolve (tree w') path).
Proof.
  intros Hsrc Hpar Hnd. destruct (resolve_file _ _ _ Hsrc) as [Hne Hl].
  split; [unfold read_text; now rewrite Hsrc|].
  rewrite (export_result w path data Hsrc Hpar Hnd). eexists. split; [reflexivity|].
  cbn [tree].
  assert (Hcopy : resolve
            (set_file (set_file (tree w) (mirror (components path)) [])
               (mirror (components path)) (universal_newlines data))
            (of_string "doc/api/" ++ path)
          = Some (File (universal_newlines data))).
  { rewrite resolve_mirror. apply lookup_set_file_same. }
  assert (Hkeep : resolve
            (set_file (set_file (tree w) (mirror (components path)) [])
               (mirror (components path)) (universal_newlines data))
            path
          = Some (File data)).
  { rewrite resolve_components by assumption.
    rewrite !lookup_set_file_other by apply mirror_neq. exact Hl. }
  split; [exact Hcopy | split; [exact Hkeep|]].
  intros Hcr. rewrite Hcopy, Hkeep, universal_newlines_id by assumption.
  reflexivity.
Qed.

Lemma export_copies_text_witness :
  read_text (of_string "collections/sub/b.nim")
    (snd (collector 3 (init_world tree_rerun)))
  = (Ok (universal_newlines (of_string "B")),
     snd (collector 3 (init_world tree_rerun)))
  /\ exists w',
    export (of_string "collections/sub/b.nim")
      (snd (collector 3 (init_world tree_rerun))) = (Ok tt, w')
    /\ resolve (tree w') (of_string "doc/api/" ++ of_string "collections/sub/b.nim")
       = Some (File (universal_newlines (of_string "B")))
    /\ resolve (tree w') (of_string "collections/sub/b.nim")
       = Some (File (of_string "B"))
    /\ (~ In CR (of_string "B") ->
        resolve (tree w') (of_string "doc/api/" ++ of_string "collections/sub/b.nim")
        = resolve (tree w') (of_string "collections/sub/b.nim")).
Proof.
  apply (export_copies_text (snd (collector 3 (init_world tree_rerun)))
           (of_string "collections/sub/b.nim") (of_string "B")).
  - vm_compute; reflexivity.
  - vm_compute; reflexivity.
  - vm_compute; discriminate.
Defined.

(** C9: in every run, whatever the tools do and wherever the run stops,
    each call of the documentation compiler comes before each call of
    the markup converter; the converter is only called on a path below
    the output tree that ends with the markup extension and does not
    contain the exclusion marker; and in a directory the second walk
    yields, it is called on every such file when no call fails. *)
Theorem doc_calls_before_markup run_process (fuel : nat) (t : fs) :
  ordered_before is_doc_call is_rst_call
    (log (snd (main run_process fuel (init_world t))))
  /\ (forall path,
        In (ECall (nim_rst2html_argv path))
           (log (snd (main run_process fuel (init_world t)))) ->
        markup_path path)
  /\ (forall top dirs files w w',
        rst_body run_process tt (top, dirs, files) w = (Ok tt, w') ->
        forall name, In name files ->
          endswith (path_join top name) (of_string ".rst") = true ->
          contains (path_join top name) [HASH] = false ->
          In (ECall (nim_rst2html_argv (path_join top name))) (log w')).
Proof.
  destruct (emits_main run_process fuel (init_world t)) as [e1 [e2 [E [F1 F2]]]].
  cbn [log init_world app] in E. rewrite E.
  split; [|split; [|exact (rst_body_converts run_process)]].
  - intros i j a b Hi Hj Ha Hb.
    apply (phases_ordered (fun e => ~ is_rst_call e) (late_event) e1 e2 i j a b);
      try assumption.
    + intros [Hn _]. contradiction.
    + intros Hn. contradiction.
  - intros path Hin. apply in_app_or in Hin. rewrite Forall_forall in F1, F2.
    destruct Hin as [Hin|Hin].
    + exfalso. apply (F1 _ Hin). exists path. reflexivity.
    + destruct (F2 _ Hin) as [_ H]. now apply H.
Qed.

Lemma doc_calls_before_markup_witness :
  ordered_before is_doc_call is_rst_call
    (log (snd (main quiet_tool 3 (init_world tree_two_files))))
  /\ In (ECall (nim_rst2html_argv (of_string "doc/index.rst")))
       (log (snd (rst_body quiet_tool tt
                    (of_string "doc/", [of_string "api"], [of_string "index.rst"])
                    (init_world tree_two_files)))).
Proof.
  destruct (doc_calls_before_markup quiet_tool 3 tree_two_files)
    as [Horder [_ Hall]].
  split; [exact Horder|].
  apply (Hall (of_string "doc/") [of_string "api"] [of_string "index.rst"]
           (init_world tree_two_files)
           (snd (rst_body quiet_tool tt
                   (of_string "doc/", [of_string "api"], [of_string "index.rst"])
                   (init_world tree_two_files)))
           eq_refl (of_string "index.rst")).
  - left; reflexivity.
  - vm_compute; reflexivity.
  - vm_compute; reflexivity.
Defined.

End PipelineProperties.

(** ** More facts about the scanner *)

Module ScannerFacts.
Import Html TextSpec StageSpec TextFacts HtmlFacts.

Lemma STYLE_not_break_free : ~ break_free STYLE.
Proof.
  intros H. rewrite STYLE_shape in H. inversion H as [|c s Hc _]; subst.
  discriminate Hc.
Qed.

Lemma STYLE_is_not_open : STYLE <> STYLE_OPEN.
Proof. discriminate. Qed.

Lemma CLOSE_is_not_open : STYLE_CLOSE <> STYLE_OPEN.
Proof. discriminate. Qed.

(** One iteration appends nothing, the line, or the snippet. *)
Lemma step_cases (st : state) (line : str) :
  (line = STYLE_OPEN /\ step st line = mkState (out st ++ [STYLE]) true)
  \/ (line <> STYLE_OPEN /\ step st line = mkState (out st ++ [line]) false)
  \/ (line <> STYLE_OPEN /\ css st = true /\ step st line = st).
Proof.
  destruct (str_eqb line STYLE_OPEN) eqn:Eo.
  - apply str_eqb_eq in Eo. subst line. left. split; [reflexivity | apply step_open].
  - apply str_eqb_neq in Eo. right.
    destruct (str_eqb line STYLE_CLOSE) eqn:Ec.
    + apply str_eqb_eq in Ec. subst line. left.
      split; [assumption | apply step_close].
    + apply str_eqb_neq in Ec. rewrite (step_other st line Eo Ec).
      destruct (css st) eqn:E; [right | left]; auto.
Qed.

Lemma run_no_open (lines : list str) :
  forall st, ~ In STYLE_OPEN (out st) -> ~ In STYLE_OPEN (out (run st lines)).
Proof.
  induction lines as [|l ls IH]; intros st H; [exact H|].
  rewrite run_cons. apply IH.
  destruct (step_cases st l) as [[_ E]|[[Hl E]|[_ [_ E]]]]; rewrite E; cbn [out].
  - intros Hin. apply in_app_or in Hin.
    destruct Hin as [Hin|[Hin|[]]]; [exact (H Hin) | exact (STYLE_is_not_open Hin)].
  - intros Hin. apply in_app_or in Hin.
    destruct Hin as [Hin|[Hin|[]]]; [exact (H Hin) | exact (Hl Hin)].
  - exact H.
Qed.

Lemma count_style_snoc (o : list str) (x : str) :
  count_style (o ++ [x])
  = count_style o + (if str_eqb x STYLE then 1 else 0).
Proof.
  unfold count_style. rewrite filter_app, length_app. cbn [filter].
  destruct (str_eqb x STYLE); reflexivity.
Qed.

Lemma run_count_style (lines : list str) :
  Forall break_free lines ->
  forall st,
    count_style (out (run st lines)) = count_style (out st) + count_open lines.
Proof.
  induction 1 as [|l ls Hl _ IH]; intros st.
  - cbn. now rewrite Nat.add_0_r.
  - rewrite run_cons, IH. unfold count_open. cbn [filter].
    assert (Hns : str_eqb l STYLE = false).
    { apply str_eqb_neq. intros ->. exact (STYLE_not_break_free Hl). }
    destruct (step_cases st l) as [[-> E]|[[Hn E]|[Hn [_ E]]]]; rewrite E; cbn [out].
    + rewrite count_style_snoc, !str_eqb_refl. cbn [List.length]. lia.
    + rewrite count_style_snoc, Hns. apply str_eqb_neq in Hn. rewrite Hn. lia.
    + apply str_eqb_neq in Hn. rewrite Hn. lia.
Qed.

Lemma run_elements (lines : list str) :
  forall st e, In e (out (run st lines)) ->
    In e (out st) \/ e = STYLE \/ In e lines.
Proof.
  induction lines as [|l ls IH]; intros st e H; [left; exact H|].
  rewrite run_cons in H. apply IH in H.
  destruct H as [H|[H|H]]; [|auto|right; right; right; exact H].
  destruct (step_cases st l) as [[_ E]|[[_ E]|[_ [_ E]]]]; rewrite E in H;
    cbn [out] in H; auto;
    apply in_app_or in H; destruct H as [H|[H|[]]]; auto.
  right; right; left; exact H.
Qed.

Lemma run_length (lines : list str) :
  forall st,
    List.length (out (run st lines)) <= List.length (out st) + List.length lines.
Proof.
  induction lines as [|l ls IH]; intros st; [cbn; lia|].
  rewrite run_cons. specialize (IH (step st l)).
  destruct (step_cases st l) as [[_ E]|[[_ E]|[_ [_ E]]]]; rewrite E in IH |- *;
    cbn [out] in IH; try rewrite length_app in IH; cbn [List.length] in *; lia.
Qed.

(** What is already in [out] plays no part in what a run appends. *)
Lemma step_prefix (o : list str) (c : bool) (line : str) :
  step (mkState o c) line
  = mkState (o ++ out (step (mkState [] c) line))
            (css (step (mkState [] c) line)).
Proof.
  unfold step.
  destruct (str_eqb line STYLE_OPEN), (str_eqb line STYLE_CLOSE), c;
    cbn [out css negb app]; rewrite ?app_nil_r, <- ?app_assoc; reflexivity.
Qed.

Lemma run_prefix (lines : list str) :
  forall o c,
    run (mkState o c) lines
    = mkState (o ++ out (run (mkState [] c) lines))
              (css (run (mkState [] c) lines)).
Proof.
  induction lines as [|l ls IH]; intros o c.
  - cbn. now rewrite app_nil_r.
  - rewrite !run_cons, (step_prefix o c l).
    destruct (step (mkState [] c) l) as [o1 c1]. cbn [out css].
    rewrite (IH (o ++ o1) c1), (IH o1 c1). cbn [out css].
    rewrite app_assoc. reflexivity.
Qed.

(** Splitting what [join] made of lines without boundaries. *)
Lemma splitlines_join (lines : list str) :
  Forall break_free lines -> last lines [LF] <> [] ->
  splitlines (join [LF] lines) = lines.
Proof.
  induction 1 as [|l ls Hl Hls IH]; intros Hlast; [reflexivity|].
  destruct ls as [|l2 ls].
  - cbn [join]. cbn [last] in Hlast. unfold splitlines.
    replace (splitlines_from [] l) with (splitlines_from [] (l ++ []))
      by now rewrite app_nil_r.
    rewrite splitlines_from_app by assumption.
    cbn. destruct l; [contradiction Hlast; reflexivity | reflexivity].
  - change (join [LF] (l :: l2 :: ls)) with (l ++ LF :: join [LF] (l2 :: ls)).
    rewrite splitlines_line by assumption. rewrite IH; [reflexivity|].
    exact Hlast.
Qed.

End ScannerFacts.

(** ** More facts about the script *)

Module StageFacts.
Import Os Builddocs RunSpec StageSpec TextFacts OsFacts LogFacts ScriptFacts.
Local Open Scope os_scope.
Local Arguments N.eqb : simpl never.
Local Arguments of_string : simpl never.

(** *** Relations the tree moves along *)

Section Steps.
Variable R : fs -> fs -> Prop.
Hypothesis R_refl : forall t, R t t.
Hypothesis R_trans : forall t1 t2 t3, R t1 t2 -> R t2 t3 -> R t1 t3.

Lemma steps_ret {A} (a : A) : steps R (ret a).
Proof. intros w. apply R_refl. Qed.

Lemma steps_raise {A} (e : exn) : steps R (@raise A e).
Proof. intros w. apply R_refl. Qed.

Lemma steps_bind {A B} (m : M A) (k : A -> M B) :
  steps R m -> (forall a, steps R (k a)) -> steps R (bind m k).
Proof.
  intros Hm Hk w. unfold bind. specialize (Hm w).
  destruct (m w) as [[a|e] w1]; cbn [snd] in *; [|exact Hm].
  eapply R_trans; [exact Hm | apply Hk].
Qed.

Lemma steps_foldM {A B} (f : A -> B -> M A) (l : list B) :
  (forall a x, In x l -> steps R (f a x)) ->
  forall acc, steps R (foldM f l acc).
Proof.
  induction l as [|x l IH]; intros Hf acc; cbn [foldM].
  - apply steps_ret.
  - apply steps_bind; [apply Hf; left; reflexivity|].
    intros a. apply IH. intros a' y Hy. apply Hf. right; exact Hy.
Qed.

Lemma steps_walk_for {A} (body : A -> str * list str * list str -> M A) :
  (forall acc entry, steps R (body acc entry)) ->
  forall fuel top acc, steps R (walk_for fuel top body acc).
Proof.
  intros Hbody. induction fuel as [|fuel IH]; intros top acc.
  - apply steps_raise.
  - intros w. cbn [walk_for].
    destruct (scandir (tree w) top) as [[dirs files]|]; [|apply R_refl].
    apply steps_bind; [apply Hbody|].
    intros a. apply steps_foldM. intros a' d _. apply IH.
Qed.
End Steps.

Lemma steps_ensure_mirror (s : str) (q : path) :
  components s = mirror q -> steps grows (ensure_dir s).
Proof.
  intros Hc w. destruct (ensure_dir s w) as [[[]|e] w1] eqn:E.
  - now destruct (ensure_dir_post s q w w1 Hc E).
  - rewrite ensure_dir_eq in E.
    destruct (resolve (tree w) s); [discriminate|].
    unfold mkdir in E. destruct (resolve (tree w) s); [injection E as _ <-; apply grows_refl|].
    destruct s as [|c s]; [injection E as _ <-; apply grows_refl|].
    destruct (node_at (tree w) (parent (components (c :: s)))) as [[c'|]|];
      try discriminate; injection E as _ <-; apply grows_refl.
Qed.

Lemma steps_collector (fuel : nat) : steps grows (collector fuel).
Proof.
  unfold collector. apply steps_bind; [exact grows_trans | |].
  - apply (steps_ensure_mirror _ []). reflexivity.
  - intros _. apply steps_walk_for; [exact grows_refl | exact grows_trans|].
    intros acc [[top dirs] files]. unfold collect_body.
    apply steps_bind; [exact grows_trans | |].
    + apply (steps_ensure_mirror _ (components top)). apply components_mirror.
    + intros _. apply steps_ret. exact grows_refl.
Qed.

(** *** The inner loop *)

Lemma collect_names_eq (root : str) (files acc : list str) :
  collect_names root files acc
  = acc ++ map (path_join root)
             (filter (fun name => endswith name (of_string ".nim")) files).
Proof.
  unfold collect_names. revert acc.
  induction files as [|name files IH]; intros acc; cbn [fold_left filter map].
  - now rewrite app_nil_r.
  - rewrite IH. destruct (endswith name (of_string ".nim")); cbn [map];
      [rewrite <- app_assoc|]; reflexivity.
Qed.

(** *** Scans *)

Lemma scandir_files_In (t : fs) (top : str) (dirs files : list str) (n : str) :
  scandir t top = Some (dirs, files) -> In n files ->
  valid_name n = true
  /\ exists x, In (components top ++ [n], x) t /\ is_dir x = false.
Proof.
  unfold scandir. destruct (resolve t top) as [[c|]|]; try discriminate.
  intros [= _ <-] Hn. apply in_map_iff in Hn.
  destruct Hn as [[n' x] [E Hn]]. cbn [fst] in E. subst n'.
  apply filter_In in Hn. destruct Hn as [Hn Hx]. cbn [snd] in Hx.
  apply listdir_In in Hn. destruct Hn as [Hv Hin].
  split; [assumption|]. exists x. split; [assumption|].
  now apply negb_true_iff in Hx.
Qed.

Lemma scandir_lists_files (t : fs) (top : str) (dirs files : list str)
    (n : str) (x : node) :
  scandir t top = Some (dirs, files) ->
  valid_name n = true -> In (components top ++ [n], x) t -> is_dir x = false ->
  In n files.
Proof.
  unfold scandir. destruct (resolve t top) as [[c|]|]; try discriminate.
  intros [= _ <-] Hn Hin Hx.
  apply in_map_iff. exists (n, x). split; [reflexivity|].
  apply filter_In. split; [now apply In_listdir|].
  cbn [snd]. now rewrite Hx.
Qed.

Lemma scandir_dir_lookup (t : fs) (top : str) (dirs files : list str) :
  scandir t top = Some (dirs, files) -> components top <> [] ->
  lookup t (components top) = Some Dir.
Proof.
  intros Es Hne. apply scandir_is_dir in Es.
  now rewrite resolve_components in Es.
Qed.

Lemma reach_trans (t : fs) (a b c : path) :
  reach t a b -> reach t b c -> reach t a c.
Proof.
  induction 1 as [q Hq | q n d Hq Hn _ IH]; intros H; [exact H|].
  eapply reach_step; eauto.
Qed.

Lemma reach_end_dir (t : fs) (a b : path) :
  reach t a b -> lookup t b = Some Dir.
Proof. induction 1; assumption. Qed.

Lemma reach_child (t : fs) (r q : path) (n : str) :
  reach t r q -> valid_name n = true -> lookup t (q ++ [n]) = Some Dir ->
  reach t r (q ++ [n]).
Proof.
  intros Hr Hn Hl. eapply reach_trans; [exact Hr|].
  apply (reach_step t q n);
    [eapply reach_end_dir; eauto | assumption | now apply reach_here].
Qed.

(** *** The walk as a function of the source tree *)

Section WalkNames.
Variable t0 : fs.

Lemma foldM_result (f : list str -> str -> M (list str))
    (g : list str -> str -> option (list str)) (ds : list str) :
  (forall a d w a' w', In d ds -> grows t0 (tree w) ->
      f a d w = (Ok a', w') -> grows t0 (tree w') /\ g a d = Some a') ->
  forall acc w acc' w', grows t0 (tree w) ->
    foldM f ds acc w = (Ok acc', w') -> fold_opt g ds acc = Some acc'.
Proof.
  intros Hstep. induction ds as [|d ds IH]; intros acc w acc' w' G.
  - intros [= <- _]. reflexivity.
  - cbn [foldM fold_opt]. unfold bind.
    destruct (f acc d w) as [[a|e] w1] eqn:E; [|discriminate].
    destruct (Hstep _ _ _ _ _ (or_introl eq_refl) G E) as [G1 ->].
    apply IH; [|assumption].
    intros a0 d0 w0 a0' w0' Hin. apply Hstep. right; exact Hin.
Qed.

(** The list a successful walk returns is the one the tree gives. *)
Lemma walk_result (fuel : nat) :
  forall top acc w acc' w',
    in_source (components top) -> grows t0 (tree w) ->
    walk_for fuel top collect_body acc w = (Ok acc', w') ->
    walk_names fuel t0 top acc = Some acc'.
Proof.
  induction fuel as [|fuel IH]; intros top acc w acc' w' Hsrc G;
    [discriminate|].
  cbn [walk_for walk_names].
  rewrite (grows_scandir_source _ _ _ G Hsrc).
  destruct (scandir t0 top) as [[dirs files]|] eqn:Es;
    [|intros [= <- _]; reflexivity].
  unfold bind. rewrite collect_body_eq.
  destruct (ensure_dir (of_string "doc/api/" ++ top) w) as [[[]|e] w1] eqn:Ee;
    [|discriminate].
  destruct (ensure_dir_post _ _ _ _ (components_mirror top) Ee) as [G1 _].
  assert (G01 : grows t0 (tree w1)) by (eapply grows_trans; eauto).
  destruct (scandir_valid _ _ _ _ Es) as [Hvalid _].
  rewrite Forall_forall in Hvalid.
  apply foldM_result; [|assumption].
  intros a d w2 a' w2' Hin G2 Hw.
  assert (Hs : in_source (components (path_join top d))).
  { rewrite components_join by now apply Hvalid. now apply in_source_snoc. }
  split; [|eapply IH; eauto].
  destruct (walk_post t0 fuel _ _ _ _ _ Hs G2 Hw) as [G3 _].
  eapply grows_trans; eauto.
Qed.

Lemma foldM_again (f : list str -> str -> M (list str))
    (g : list str -> str -> option (list str)) (ds : list str) (w : world) :
  (forall a d a', In d ds -> g a d = Some a' -> f a d w = (Ok a', w)) ->
  forall acc acc', fold_opt g ds acc = Some acc' ->
    foldM f ds acc w = (Ok acc', w).
Proof.
  intros Hstep. induction ds as [|d ds IH]; intros acc acc'.
  - intros [= <-]. reflexivity.
  - cbn [foldM fold_opt]. unfold bind.
    destruct (g acc d) as [a|] eqn:E; [|discriminate].
    rewrite (Hstep _ _ _ (or_introl eq_refl) E).
    apply IH. intros a0 d0 a0' Hin. apply Hstep. right; exact Hin.
Qed.

(** In a state where every directory of the source tree has its
    mirror, the walk makes nothing and returns the list the tree
    gives. *)
Lemma walk_again (fuel : nat) :
  forall top acc acc' w,
    in_source (components top) -> grows t0 (tree w) ->
    mirrored_below t0 (components top) w ->
    walk_names fuel t0 top acc = Some acc' ->
    walk_for fuel top collect_body acc w = (Ok acc', w).
Proof.
  induction fuel as [|fuel IH]; intros top acc acc' w Hsrc G Hm;
    [discriminate|].
  cbn [walk_for walk_names].
  rewrite (grows_scandir_source _ _ _ G Hsrc).
  destruct (scandir t0 top) as [[dirs files]|] eqn:Es;
    [|intros [= <-]; reflexivity].
  pose proof (in_source_nonempty _ Hsrc) as Hne.
  pose proof (scandir_dir_lookup _ _ _ _ Es Hne) as Hq.
  unfold bind. rewrite collect_body_eq, ensure_dir_eq, resolve_mirror.
  specialize (Hm _ (reach_here _ _ Hq)) as Hmq.
  destruct (lookup (tree w) (mirror (components top))) as [x|]; [|contradiction].
  destruct (scandir_valid _ _ _ _ Es) as [Hvalid _].
  rewrite Forall_forall in Hvalid.
  apply foldM_again. intros a d a' Hin Ha.
  apply IH; try assumption.
  - rewrite components_join by now apply Hvalid. now apply in_source_snoc.
  - rewrite components_join by now apply Hvalid.
    intros x' Hx'. apply Hm. eapply reach_step; eauto.
Qed.

Lemma fold_opt_inv {A B} (g : A -> B -> option A) (ds : list B)
    (P : A -> Prop) :
  (forall a d a', In d ds -> P a -> g a d = Some a' -> P a') ->
  forall acc acc', P acc -> fold_opt g ds acc = Some acc' -> P acc'.
Proof.
  intros Hstep. induction ds as [|d ds IH]; intros acc acc' Hacc.
  - intros [= <-]. exact Hacc.
  - cbn [fold_opt]. destruct (g acc d) as [a|] eqn:E; [|discriminate].
    apply IH.
    + intros a0 d0 a0' Hin. apply Hstep. right; exact Hin.
    + eapply Hstep; eauto. left; reflexivity.
Qed.

Lemma endswith_app (a b suffix : str) :
  endswith b suffix = true -> endswith (a ++ b) suffix = true.
Proof.
  unfold endswith. rewrite rev_app_distr. apply startswith_app.
Qed.

Lemma endswith_join (top name suffix : str) :
  valid_name name = true -> endswith name suffix = true ->
  endswith (path_join top name) suffix = true.
Proof.
  intros Hv He. unfold path_join.
  destruct (startswith name [SLASH]); [exact He|].
  destruct (match top with [] => true | _ :: _ => endswith top [SLASH] end).
  - now apply endswith_app.
  - rewrite app_assoc. now apply endswith_app.
Qed.

(** Every path the walk collects is a source file of the tree. *)
Lemma walk_names_sound (fuel : nat) :
  forall top acc acc',
    in_source (components top) ->
    startswith top (of_string "collections") = true ->
    (lookup t0 (components top) = Some Dir ->
     reach t0 source_root (components top)) ->
    Forall (nim_source t0) acc ->
    walk_names fuel t0 top acc = Some acc' ->
    Forall (nim_source t0) acc'.
Proof.
  induction fuel as [|fuel IH]; intros top acc acc' Hsrc Hst Hre Hacc;
    [discriminate|].
  cbn [walk_names].
  destruct (scandir t0 top) as [[dirs files]|] eqn:Es;
    [|intros [= <-]; exact Hacc].
  pose proof (in_source_nonempty _ Hsrc) as Hne.
  pose proof (scandir_dir_lookup _ _ _ _ Es Hne) as Hq.
  specialize (Hre Hq).
  destruct (scandir_valid _ _ _ _ Es) as [Hvalid _].
  rewrite Forall_forall in Hvalid.
  apply fold_opt_inv.
  - intros a d a' Hin Ha Hw.
    apply (IH (path_join top d) a a'); try assumption.
    + rewrite components_join by now apply Hvalid. now apply in_source_snoc.
    + apply startswith_join; [now apply Hvalid | assumption].
    + rewrite components_join by now apply Hvalid.
      intros Hl. apply reach_child; auto.
  - rewrite collect_names_eq. apply Forall_app. split; [assumption|].
    apply Forall_forall. intros p Hp. apply in_map_iff in Hp.
    destruct Hp as [name [<- Hname]]. apply filter_In in Hname.
    destruct Hname as [Hin Hext].
    destruct (scandir_files_In _ _ _ _ _ Es Hin) as [Hv [x [Hx Hd]]].
    split; [now apply startswith_join|].
    split; [now apply endswith_join|].
    exists (components top), name, x.
    rewrite components_join by assumption. auto.
Qed.

Lemma collected_below_incl (q : path) (a b : list str) :
  incl a b -> collected_below t0 q a -> collected_below t0 q b.
Proof.
  intros Hab H d name x Hd Hin Hx Hv He.
  destruct (H d name x Hd Hin Hx Hv He) as [p [Hp Hc]]. eauto.
Qed.

Lemma fold_opt_complete (g : list str -> str -> option (list str))
    (ds : list str) (Q : str -> list str -> Prop) :
  (forall a d a', In d ds -> g a d = Some a' -> incl a a' /\ Q d a') ->
  (forall d a b, incl a b -> Q d a -> Q d b) ->
  forall acc acc', fold_opt g ds acc = Some acc' ->
    incl acc acc' /\ forall d, In d ds -> Q d acc'.
Proof.
  intros Hstep Hmono. induction ds as [|d ds IH]; intros acc acc'.
  - intros [= <-]. split; [apply incl_refl | intros d []].
  - cbn [fold_opt]. destruct (g acc d) as [a|] eqn:E; [|discriminate].
    intros Hrest.
    destruct (Hstep _ _ _ (or_introl eq_refl) E) as [I1 Q1].
    destruct IH with (2 := Hrest) as [I2 Q2].
    { intros a0 d0 a0' Hin. apply Hstep. right; exact Hin. }
    split; [eapply incl_tran; eauto|].
    intros d' [<-|Hin]; [eapply Hmono; eauto | now apply Q2].
Qed.

Lemma walk_names_complete (fuel : nat) :
  forall top acc acc',
    in_source (components top) ->
    walk_names fuel t0 top acc = Some acc' ->
    incl acc acc' /\ collected_below t0 (components top) acc'.
Proof.
  induction fuel as [|fuel IH]; intros top acc acc' Hsrc; [discriminate|].
  cbn [walk_names].
  pose proof (in_source_nonempty _ Hsrc) as Hne.
  destruct (scandir t0 top) as [[dirs files]|] eqn:Es.
  - intros Hfold.
    destruct (scandir_valid _ _ _ _ Es) as [Hvalid _].
    rewrite Forall_forall in Hvalid.
    destruct (fold_opt_complete
                (fun a d => walk_names fuel t0 (path_join top d) a) dirs
                (fun d a => collected_below t0 (components top ++ [d]) a))
      with (3 := Hfold) as [I2 Q2].
    { intros a d a' Hin Ha.
      rewrite <- (components_join top d (Hvalid d Hin)).
      apply IH; [|assumption].
      rewrite components_join by now apply Hvalid. now apply in_source_snoc. }
    { intros d a b. apply collected_below_incl. }
    assert (I1 : incl acc (collect_names top files acc)).
    { rewrite collect_names_eq. apply incl_appl, incl_refl. }
    split; [eapply incl_tran; eauto|].
    intros d name x Hd Hin Hx Hv He.
    inversion Hd as [q Hl|q n d' Hl Hn Hsub]; subst.
    + exists (path_join top name). split; [|now apply components_join].
      apply I2. rewrite collect_names_eq. apply in_or_app. right.
      apply in_map. apply filter_In. split; [|assumption].
      eapply scandir_lists_files; eauto.
    + apply (Q2 n) with (x := x); try assumption.
      eapply scandir_lists_dirs; eauto. eapply reach_root_dir; eauto.
  - intros [= <-]. split; [apply incl_refl|].
    intros d name x Hd. apply reach_root_dir in Hd.
    unfold scandir in Es. rewrite resolve_components, Hd in Es by assumption.
    discriminate.
Qed.

End WalkNames.

(** *** The first stage, from any state *)

Lemma collector_names (fuel : nat) (w : world) (files : list str) (w' : world) :
  collector fuel w = (Ok files, w') ->
  walk_names fuel (tree w) (of_string "collections") [] = Some files
  /\ grows (tree w) (tree w')
  /\ mirrored_below (tree w) source_root w'
  /\ lookup (tree w') (mirror []) <> None.
Proof.
  rewrite collector_eq.
  destruct (ensure_dir (of_string "doc/api") w) as [[[]|e] w1] eqn:Ee;
    [|discriminate].
  destruct (ensure_dir_post _ _ _ _ components_doc_api Ee) as [G1 [Hroot _]].
  intros Hw.
  assert (Hs : in_source (components (of_string "collections")))
    by (rewrite components_collections; apply source_root_in_source).
  destruct (walk_post (tree w) fuel _ _ _ _ _ Hs G1 Hw) as [G2 Hm].
  split; [eapply walk_result; eauto|].
  split; [eapply grows_trans; eauto|].
  split; [exact Hm|].
  destruct (lookup (tree w1) (mirror [])) as [x|] eqn:E; [|contradiction].
  rewrite (grows_lookup_some _ _ _ _ G2 E). discriminate.
Qed.

Lemma collector_sound (fuel : nat) (w : world) (files : list str) (w' : world) :
  collector fuel w = (Ok files, w') -> Forall (nim_source (tree w)) files.
Proof.
  intros H. destruct (collector_names fuel w files w' H) as [Hn _].
  apply (walk_names_sound (tree w) fuel (of_string "collections") [] files);
    try assumption.
  - rewrite components_collections. apply source_root_in_source.
  - reflexivity.
  - rewrite components_collections. apply reach_here.
  - constructor.
Qed.

(** *** What each stage may log *)

Lemma emits_bind_ok {A B} (P : event -> Prop) (R : A -> Prop)
    (m : M A) (k : A -> M B) :
  (forall w a w', m w = (Ok a, w') -> R a) ->
  emits P m -> (forall a, R a -> emits P (k a)) -> emits P (bind m k).
Proof.
  intros HR Hm Hk w. unfold bind. destruct (Hm w) as [e1 [E1 F1]].
  destruct (m w) as [[a|e] w1] eqn:E; cbn [snd] in E1.
  - destruct (Hk a (HR _ _ _ E) w1) as [e2 [E2 F2]]. exists (e1 ++ e2).
    rewrite E2, E1, app_assoc. split; [reflexivity | now apply Forall_app].
  - exists e1. auto.
Qed.

Lemma startswith_prefix (a b : str) : startswith (a ++ b) a = true.
Proof.
  induction a as [|c a IH]; [reflexivity|].
  cbn [app startswith]. now rewrite N.eqb_refl, IH.
Qed.

Lemma contains_prefix (a b : str) : contains (a ++ b) a = true.
Proof.
  assert (H : forall s : str,
             startswith s a = true -> contains s a = true).
  { intros s Hs. destruct s; cbn [contains]; now rewrite Hs. }
  apply H, startswith_prefix.
Qed.

Lemma reach_in_source (t : fs) (q d : path) :
  reach t q d -> in_source q -> in_source d.
Proof.
  induction 1 as [q _|q n d _ _ _ IH]; intros Hq; [exact Hq|].
  apply IH. now apply in_source_snoc.
Qed.

Lemma nim_source_in_source (t : fs) (p : str) :
  nim_source t p ->
  in_source (components p) /\ endswith p (of_string ".nim") = true.
Proof.
  intros [_ [He [q [name [x [Hq [_ [_ [_ Hc]]]]]]]]]. split; [|exact He].
  rewrite Hc. apply in_source_snoc.
  exact (reach_in_source _ _ _ Hq source_root_in_source).
Qed.

Lemma copy_path_mirror (path : str) :
  in_source (components path) ->
  endswith path (of_string ".nim") = true ->
  copy_path (of_string "doc/api/" ++ path).
Proof.
  intros Hs He. split; [|now apply endswith_app].
  exists (components path). split; [exact Hs | apply components_mirror].
Qed.

Lemma in_source_join (top d : str) :
  in_source (components top) -> valid_name d = true ->
  in_source (components (path_join top d)).
Proof.
  intros H Hd. rewrite components_join by assumption.
  now apply in_source_snoc.
Qed.

Lemma emits_collector_paths (fuel : nat) :
  emits (fun e => exists p, e = EMkdir p /\ api_path p) (collector fuel).
Proof.
  unfold collector. apply emits_bind.
  - apply emits_ensure_dir. eexists. split; [reflexivity|].
    exists []. split; [now left | exact components_doc_api].
  - intros _.
    apply emits_walk_for with (R := fun top => in_source (components top));
      [exact in_source_join | |
       rewrite components_collections; exact source_root_in_source].
    intros acc top dirs files Htop _. unfold collect_body.
    apply emits_bind; [|auto with emits].
    apply emits_ensure_dir. eexists. split; [reflexivity|].
    exists (components top). split; [now right | apply components_mirror].
Qed.

(** A name after a slash: a suffix without a slash is a suffix of the
    name. *)
Lemma startswith_before_slash (a x p : str) :
  ~ In SLASH p -> startswith (a ++ SLASH :: x) p = true ->
  startswith a p = true.
Proof.
  revert a. induction p as [|c p IH]; intros a Hp H; [reflexivity|].
  destruct a as [|y a]; cbn [app startswith] in H |- *.
  - apply andb_true_iff in H as [H _]. apply N.eqb_eq in H.
    exfalso. apply Hp. left. symmetry. exact H.
  - apply andb_true_iff in H as [Hy H]. rewrite Hy. cbn [andb].
    apply IH; [|exact H]. intros Hin. apply Hp. now right.
Qed.

Lemma endswith_join_inv (top name suffix : str) :
  valid_name name = true -> ~ In SLASH suffix ->
  endswith (path_join top name) suffix = true ->
  endswith name suffix = true.
Proof.
  intros Hv Hs. unfold path_join.
  destruct (startswith name [SLASH]); [auto|].
  assert (Hpre : forall pre, endswith ((pre ++ [SLASH]) ++ name) suffix = true ->
                             endswith name suffix = true).
  { intros pre. unfold endswith. rewrite !rev_app_distr. cbn [rev app].
    apply startswith_before_slash. now rewrite <- in_rev. }
  destruct top as [|c top]; [auto|].
  destruct (endswith (c :: top) [SLASH]) eqn:E.
  - apply endswith_slash in E as [a' ->]. apply Hpre.
  - rewrite app_assoc. apply Hpre.
Qed.

Lemma page_components (root name : str) (r : path) :
  components root = of_string "doc" :: r -> valid_name name = true ->
  endswith (path_join root name) (of_string ".html") = true ->
  page_pathb (components (path_join root name)) = true.
Proof.
  intros Hc Hv He. rewrite components_join, Hc by assumption.
  apply endswith_join_inv in He; [|exact Hv|].
  - unfold page_pathb.
    change ((of_string "doc" :: r) ++ [name])
      with (of_string "doc" :: (r ++ [name])).
    destruct (r ++ [name]) as [|b l] eqn:E;
      [now destruct r|].
    rewrite <- E.
    change (of_string "doc" :: (r ++ [name]))
      with ((of_string "doc" :: r) ++ [name]).
    rewrite last_snoc, He. reflexivity.
  - vm_compute. intuition discriminate.
Qed.

Section StageEvents.
Variable run_process : list str -> fs -> Z * fs.

Lemma emits_export_and_doc (P : event -> Prop) (path : str) :
  P (EWrite (of_string "doc/api/" ++ path)) ->
  P (ECall (nim_doc_argv (of_string "doc/api/" ++ path))) ->
  emits P (export_and_doc run_process path).
Proof.
  intros Hw Hc. unfold export_and_doc, export. emits_seq.
  - now apply emits_write_text.
  - now apply emits_check_call.
Qed.

Lemma emits_stage2_any (files : list str) :
  emits (fun e => is_export e \/ is_doc_call e)
        (for_each files (export_and_doc run_process)).
Proof.
  apply emits_for_each. intros path _. apply emits_export_and_doc.
  - left. exists path. reflexivity.
  - right. eexists. reflexivity.
Qed.

Lemma emits_rst_calls (fuel : nat) :
  emits (fun e => exists p, e = ECall (nim_rst2html_argv p) /\ markup_path p)
        (walk_for fuel (of_string "doc/") (rst_body run_process) tt).
Proof.
  apply emits_walk_for with (R := below_doc);
    [exact below_doc_join | | reflexivity].
  intros [] top dirs files Htop Hfiles. unfold rst_body.
  apply emits_for_each. intros name Hname.
  rewrite Forall_forall in Hfiles.
  destruct (endswith (path_join top name) (of_string ".rst")) eqn:Eext;
    [|apply emits_ret].
  destruct (contains (path_join top name) [HASH]) eqn:Ehash;
    [apply emits_ret|]. cbn [negb andb].
  apply emits_check_call. eexists. split; [reflexivity|].
  repeat split; try assumption. apply below_doc_join; auto.
Qed.

Lemma emits_html_writes (fuel : nat) :
  emits (fun e => exists p, e = EWrite p /\ page_path p)
        (walk_for fuel (of_string "doc/") html_body tt).
Proof.
  apply emits_walk_for
    with (R := fun top => below_doc top
                          /\ exists r, components top = of_string "doc" :: r).
  - intros top d [Hb [r Hr]] Hd. split; [now apply below_doc_join|].
    exists (r ++ [d]). now rewrite components_join, Hr.
  - intros [] top dirs files [Htop [r Hr]] Hfiles. unfold html_body.
    apply emits_for_each. intros name Hname.
    rewrite Forall_forall in Hfiles.
    destruct (endswith (path_join top name) (of_string ".html")) eqn:Eext;
      [|apply emits_ret].
    destruct (contains (path_join top name) (of_string "doc/api/")) eqn:Eapi;
      [apply emits_ret|]. cbn [negb andb].
    emits_seq. apply emits_write_text. eexists. split; [reflexivity|].
    split; [apply below_doc_join; auto|].
    split; [assumption|]. split; [assumption|].
    apply (page_components top name r); auto.
  - split; [reflexivity | exists []; reflexivity].
Qed.

Lemma emits_main_allowed (fuel : nat) : emits allowed (main run_process fuel).
Proof.
  unfold main.
  apply emits_bind_ok with
    (R := fun files : list str =>
            Forall (fun p => in_source (components p)
                             /\ endswith p (of_string ".nim") = true) files).
  - intros w files w' H. apply collector_sound in H.
    eapply Forall_impl; [|exact H]. intros p. apply nim_source_in_source.
  - eapply emits_weaken; [|apply emits_collector_paths].
    intros e [p [-> H]]. exact H.
  - intros files Hfiles. rewrite Forall_forall in Hfiles. apply emits_bind.
    + apply emits_for_each. intros path Hin.
      destruct (Hfiles path Hin) as [Hs He].
      pose proof (copy_path_mirror path Hs He) as Hcopy.
      apply emits_export_and_doc; cbn [allowed]; [now left|].
      left. eexists. split; [reflexivity | exact Hcopy].
    + intros _. apply emits_bind.
      * eapply emits_weaken; [|apply emits_rst_calls].
        intros e [p [-> H]]. cbn [allowed]. right. eauto.
      * intros _. eapply emits_weaken; [|apply emits_html_writes].
        intros e [p [-> H]]. cbn [allowed]. now right.
Qed.

Lemma export_is_not_rewrite (path : str) :
  ~ is_rewrite (EWrite (of_string "doc/api/" ++ path)).
Proof.
  intros [p [E H]]. injection E as E. subst p.
  pose proof (contains_prefix (of_string "doc/api/") path) as H'.
  change (contains (of_string "doc/api/" ++ path) (of_string "doc/api/")
          = false) in H.
  rewrite H' in H. discriminate H.
Qed.

(** The directories first, the rewriting of the pages last. *)
Lemma emits_main_mkdir_first (fuel : nat) :
  emits_then is_mkdir (fun e => ~ is_mkdir e) (main run_process fuel).
Proof.
  unfold main. apply emits_then_bind; [apply emits_collector|].
  intros files. apply emits_then_right. apply emits_bind.
  - eapply emits_weaken; [|apply emits_stage2_any].
    intros e [[p ->]|[p ->]] [q H]; discriminate H.
  - intros _. apply emits_bind.
    + eapply emits_weaken; [|apply emits_rst_calls].
      intros e [p [-> _]] [q H]; discriminate H.
    + intros _. eapply emits_weaken; [|apply emits_html_writes].
      intros e [p [-> _]] [q H]; discriminate H.
Qed.

Lemma emits_main_rewrite_last (fuel : nat) :
  emits_then (fun e => ~ is_rewrite e) is_rewrite (main run_process fuel).
Proof.
  unfold main. apply emits_then_bind.
  - eapply emits_weaken; [|apply emits_collector].
    intros e [p ->] [q [H _]]; discriminate H.
  - intros files. apply emits_then_bind.
    + eapply emits_weaken; [|apply emits_stage2_any].
      intros e [[p ->]|[p ->]]; [apply export_is_not_rewrite|].
      intros [q [H _]]; discriminate H.
    + intros _. apply emits_then_bind.
      * eapply emits_weaken; [|apply emits_rst_calls].
        intros e [p [-> _]] [q [H _]]; discriminate H.
      * intros _. apply emits_then_right.
        eapply emits_weaken; [|apply emits_html_writes].
        intros e [p [-> [_ [_ [H _]]]]]. exists p. auto.
Qed.

End StageEvents.

(** *** The export opens its copy before it reads the source *)

Lemma read_text_fails (t : fs) (s : str) :
  (forall data, resolve t s <> Some (File data)) ->
  forall l, exists e, read_text s (mkWorld t l) = (Raise e, mkWorld t l).
Proof.
  intros H l. unfold read_text. cbn [tree].
  destruct (resolve t s) as [[c|]|] eqn:E.
  - contradiction (H c). reflexivity.
  - eexists. reflexivity.
  - eexists. reflexivity.
Qed.

Lemma resolve_set_file_other (t : fs) (p : path) (s c : str) :
  components s <> p -> resolve (set_file t p c) s = resolve t s.
Proof.
  intros H. destruct s as [|x s]; [reflexivity|].
  unfold resolve, node_at.
  destruct (components (x :: s)) eqn:E; [reflexivity|].
  apply lookup_set_file_other. congruence.
Qed.

Lemma export_unreadable (path : str) (w : world) :
  node_at (tree w) (parent (mirror (components path))) = Some Dir ->
  lookup (tree w) (mirror (components path)) <> Some Dir ->
  (forall data, resolve (tree w) path <> Some (File data)) ->
  exists e,
    export path w
    = (Raise e,
       mkWorld (set_file (tree w) (mirror (components path)) []) (log w)).
Proof.
  intros Hpar Hnd Hsrc. unfold export, bind.
  rewrite open_w_ok; rewrite ?components_mirror; try assumption;
    [|apply mirror_nonempty].
  destruct (read_text_fails
              (set_file (tree w) (mirror (components path)) []) path)
    with (l := log w) as [e He].
  - intros data. rewrite resolve_set_file_other; [apply Hsrc|].
    intros E. symmetry in E. exact (mirror_neq _ E).
  - exists e. rewrite He. reflexivity.
Qed.

(** *** The pages of one directory *)

Lemma rewrite_step (path : str) (w w1 : world) :
  components path <> [] ->
  (data <- read_text path ;;
   open_w path ;; write_text path (Html.postprocess_html data)) w
  = (Ok tt, w1) ->
  exists data,
    lookup (tree w) (components path) = Some (File data)
    /\ tree w1
       = set_file (set_file (tree w) (components path) []) (components path)
           (Html.postprocess_html (universal_newlines data)).
Proof.
  intros Hne. unfold bind, read_text.
  rewrite resolve_components by assumption.
  destruct (lookup (tree w) (components path)) as [[c|]|];
    [|discriminate|discriminate].
  unfold open_w. destruct path as [|x path]; [discriminate|].
  destruct (node_at (tree w) (parent (components (x :: path)))) as [[c'|]|];
    [discriminate| |discriminate].
  destruct (resolve (tree w) (x :: path)) as [[c'|]|];
    [|discriminate|];
    unfold write_text; cbn [tree log]; intros [= <-]; exists c;
    split; reflexivity.
Qed.

(** *** The last walk replaces contents only *)

Lemma only_contents_refl (t : fs) : only_contents t t.
Proof. intros q. now left. Qed.

Lemma only_contents_trans (t1 t2 t3 : fs) :
  only_contents t1 t2 -> only_contents t2 t3 -> only_contents t1 t3.
Proof.
  intros H12 H23 q.
  destruct (H12 q) as [E12|[c [c' [E1 E2]]]];
    destruct (H23 q) as [E23|[d [d' [E3 E4]]]].
  - left. congruence.
  - right. exists d, d'. split; congruence.
  - right. exists c, c'. split; congruence.
  - right. exists c, d'. split; congruence.
Qed.

Lemma steps_rewrite (path : str) :
  steps only_contents
    (data <- read_text path ;;
     open_w path ;; write_text path (Html.postprocess_html data)).
Proof.
  intros w. unfold bind, read_text.
  destruct (resolve (tree w) path) as [[c|]|] eqn:Er; cbn [snd];
    try apply only_contents_refl.
  destruct (resolve_file _ _ _ Er) as [Hne Hl].
  unfold open_w. destruct path as [|x path]; [discriminate Er|].
  destruct (node_at (tree w) (parent (components (x :: path)))) as [[c'|]|];
    cbn [snd]; try apply only_contents_refl.
  rewrite Er. unfold write_text. cbn [snd tree]. intros q.
  destruct (list_eq_dec (list_eq_dec N.eq_dec) (components (x :: path)) q)
    as [<-|Hq].
  - right. exists c. eexists. split; [exact Hl|]. apply lookup_set_file_same.
  - left. now rewrite !lookup_set_file_other.
Qed.

(** *** The script only changes its outputs *)

Lemma steps_weaken {A} (R R' : fs -> fs -> Prop) (m : M A) :
  (forall t t', R t t' -> R' t t') -> steps R m -> steps R' m.
Proof. intros H Hm w. apply H, Hm. Qed.

Lemma kept_outside_refl (t : fs) : kept_outside t t.
Proof. reflexivity. Qed.

Lemma kept_outside_trans (t1 t2 t3 : fs) :
  kept_outside t1 t2 -> kept_outside t2 t3 -> kept_outside t1 t3.
Proof. unfold kept_outside. congruence. Qed.

Lemma mirror_is_output (q : path) : output_pathb (mirror q) = true.
Proof. reflexivity. Qed.

Lemma grows_kept (t t' : fs) : grows t t' -> kept_outside t t'.
Proof.
  intros [added [-> F]]. unfold kept_outside. rewrite filter_app.
  replace (filter _ added) with (@nil (path * node));
    [apply app_nil_r|].
  induction F as [|e added [q ->] _ IH]; [reflexivity|].
  cbn [filter fst]. rewrite mirror_is_output. exact IH.
Qed.

Lemma set_file_kept (t : fs) (p : path) (c : str) :
  output_pathb p = true -> kept_outside t (set_file t p c).
Proof.
  intros Hp. unfold kept_outside.
  induction t as [|[q n] t IH]; cbn [set_file filter fst].
  - now rewrite Hp.
  - destruct (path_eqb q p) eqn:E; cbn [filter fst].
    + apply path_eqb_eq in E. subst q. rewrite Hp. reflexivity.
    + now rewrite IH.
Qed.

Lemma kept_outside_lookup (t t' : fs) (q : path) :
  kept_outside t t' -> output_pathb q = false -> lookup t' q = lookup t q.
Proof.
  intros H Hq.
  assert (L : forall u, lookup (filter (fun e => negb (output_pathb (fst e))) u) q
                        = lookup u q).
  { induction u as [|[k n] u IH]; [reflexivity|]. cbn [filter fst lookup].
    destruct (output_pathb k) eqn:Ek; cbn [negb lookup].
    - rewrite IH. destruct (path_eqb k q) eqn:E; [|reflexivity].
      apply path_eqb_eq in E. congruence.
    - now rewrite IH. }
  rewrite <- (L t'), <- (L t). now rewrite H.
Qed.

Lemma steps_open_w (s : str) :
  output_pathb (components s) = true -> steps kept_outside (open_w s).
Proof.
  intros Hs w. unfold open_w. destruct s as [|c s]; [apply kept_outside_refl|].
  destruct (node_at (tree w) (parent (components (c :: s)))) as [[c'|]|];
    try apply kept_outside_refl.
  destruct (resolve (tree w) (c :: s)) as [[c'|]|]; cbn [snd tree];
    try apply kept_outside_refl; now apply set_file_kept.
Qed.

Lemma steps_read_text (s : str) : steps kept_outside (read_text s).
Proof.
  intros w. unfold read_text.
  destruct (resolve (tree w) s) as [[c|]|]; apply kept_outside_refl.
Qed.

Lemma steps_write_text (s data : str) :
  output_pathb (components s) = true ->
  steps kept_outside (write_text s data).
Proof. intros Hs w. now apply set_file_kept. Qed.

Lemma steps_walk_for_top {A} (R : fs -> fs -> Prop) (P : str -> Prop)
    (body : A -> str * list str * list str -> M A) :
  (forall t, R t t) -> (forall t1 t2 t3, R t1 t2 -> R t2 t3 -> R t1 t3) ->
  (forall top d, P top -> valid_name d = true -> P (path_join top d)) ->
  (forall acc top dirs files,
      P top -> Forall (fun n => valid_name n = true) files ->
      steps R (body acc (top, dirs, files))) ->
  forall fuel top acc, P top -> steps R (walk_for fuel top body acc).
Proof.
  intros R_refl R_trans HP Hbody.
  induction fuel as [|fuel IH]; intros top acc Htop.
  - now apply steps_raise.
  - intros w. cbn [walk_for].
    destruct (scandir (tree w) top) as [[dirs files]|] eqn:Es;
      [|apply R_refl].
    destruct (scandir_valid _ _ _ _ Es) as [Hd Hf].
    apply steps_bind; [exact R_trans | now apply Hbody |].
    intros a. apply steps_foldM; [exact R_refl | exact R_trans |].
    intros a' d Hin. apply IH. apply HP; [exact Htop|].
    rewrite Forall_forall in Hd. now apply Hd.
Qed.

Section KeptOutside.
Variable run_process : list str -> fs -> Z * fs.
Hypothesis tools_keep :
  forall argv t, kept_outside t (snd (run_process argv t)).

Lemma steps_check_call (argv : list str) :
  steps kept_outside (check_call run_process argv).
Proof.
  intros w. unfold check_call. specialize (tools_keep argv (tree w)).
  destruct (run_process argv (tree w)) as [code t'].
  destruct (Z.eqb code 0); exact tools_keep.
Qed.

Lemma steps_export_and_doc (path : str) :
  steps kept_outside (export_and_doc run_process path).
Proof.
  assert (Hout : output_pathb (components (of_string "doc/api/" ++ path))
                 = true)
    by (rewrite components_mirror; apply mirror_is_output).
  unfold export_and_doc, export.
  repeat (apply steps_bind; [exact kept_outside_trans | | intros ?]).
  - now apply steps_open_w.
  - apply steps_read_text.
  - now apply steps_write_text.
  - apply steps_check_call.
Qed.

Lemma steps_rst_walk (fuel : nat) (top : str) :
  steps kept_outside (walk_for fuel top (rst_body run_process) tt).
Proof.
  apply steps_walk_for;
    [exact kept_outside_refl | exact kept_outside_trans |].
  intros [] [[root dirs] files]. unfold rst_body, for_each.
  apply steps_foldM; [exact kept_outside_refl | exact kept_outside_trans |].
  intros [] name _.
  destruct (endswith (path_join root name) (of_string ".rst")
            && negb (contains (path_join root name) [HASH])).
  - apply steps_check_call.
  - apply steps_ret. exact kept_outside_refl.
Qed.

Lemma steps_html_pages (fuel : nat) :
  steps kept_outside (walk_for fuel (of_string "doc/") html_body tt).
Proof.
  apply steps_walk_for_top
    with (P := fun top => exists r, components top = of_string "doc" :: r);
    [exact kept_outside_refl | exact kept_outside_trans | | |
     exists []; reflexivity].
  - intros top d [r Hr] Hd. exists (r ++ [d]).
    now rewrite components_join, Hr.
  - intros [] root dirs files [r Hr] Hfiles. unfold html_body, for_each.
    rewrite Forall_forall in Hfiles.
    apply steps_foldM;
      [exact kept_outside_refl | exact kept_outside_trans |].
    intros [] name Hin.
    destruct (endswith (path_join root name) (of_string ".html")) eqn:He;
      [|apply steps_ret; exact kept_outside_refl].
    destruct (negb (contains (path_join root name) (of_string "doc/api/")));
      [|apply steps_ret; exact kept_outside_refl].
    cbn [andb].
    assert (Hout : output_pathb (components (path_join root name)) = true).
    { unfold output_pathb.
      rewrite (page_components root name r Hr (Hfiles _ Hin) He).
      apply orb_true_r. }
    apply steps_bind; [exact kept_outside_trans | apply steps_read_text |].
    intros data.
    apply steps_bind; [exact kept_outside_trans | now apply steps_open_w |].
    intros _. now apply steps_write_text.
Qed.

Lemma steps_main_kept (fuel : nat) :
  steps kept_outside (main run_process fuel).
Proof.
  unfold main.
  apply steps_bind; [exact kept_outside_trans | |].
  - apply (steps_weaken grows); [exact grows_kept | apply steps_collector].
  - intros files. apply steps_bind; [exact kept_outside_trans | |].
    + unfold for_each. apply steps_foldM;
        [exact kept_outside_refl | exact kept_outside_trans |].
      intros [] path _. apply steps_export_and_doc.
    + intros _. apply steps_bind; [exact kept_outside_trans | |].
      * apply steps_rst_walk.
      * intros _. apply steps_html_pages.
Qed.
End KeptOutside.

End StageFacts.

(** ** Further properties of the post-processor and of the stages *)

Section StageProperties.
Import Html Os Builddocs TextSpec RunSpec StageSpec.
Import TextFacts HtmlFacts OsFacts LogFacts ScriptFacts ScannerFacts StageFacts.
Local Open Scope os_scope.

Local Ltac in_list := repeat (first [left; reflexivity | right]).

(** X1: the post-processor invents no line and never lets the opening
    tag through: every element of its output list is the stylesheet
    snippet or a line of the input, and none is the opening tag. *)
Theorem output_lines_from_input (lines : list str) (e : str) :
  In e (postprocess_lines lines) ->
  e <> STYLE_OPEN /\ (e = STYLE \/ In e lines).
Proof.
  intros H. split.
  - intros ->. revert H. apply run_no_open. intros [].
  - apply run_elements in H. destruct H as [[]|H]. exact H.
Qed.

Lemma output_lines_from_input_witness :
  In STYLE_CLOSE (postprocess_lines (splitlines scenario_html))
  /\ STYLE_CLOSE <> STYLE_OPEN
  /\ (STYLE_CLOSE = STYLE \/ In STYLE_CLOSE (splitlines scenario_html)).
Proof.
  assert (H : In STYLE_CLOSE (postprocess_lines (splitlines scenario_html)))
    by (vm_compute; in_list).
  split; [exact H|].
  exact (output_lines_from_input (splitlines scenario_html) STYLE_CLOSE H).
Defined.

(** X2: the output list holds the snippet once for each line of the
    input equal to the opening tag, whether the section is closed or
    not, and it is never longer than the list of input lines. *)
Theorem one_snippet_per_opening_tag (data : str) :
  count_style (postprocess_lines (splitlines data))
  = count_open (splitlines data)
  /\ List.length (postprocess_lines (splitlines data))
     <= List.length (splitlines data).
Proof.
  split.
  - unfold postprocess_lines.
    rewrite run_count_style by apply splitlines_break_free. reflexivity.
  - apply (run_length (splitlines data) init).
Qed.

(** X3: when the flag is clear after a first list of lines (every
    style section of it is closed), the lines that follow are processed
    on their own: the output of the whole is the two outputs, one after
    the other. *)
Theorem postprocess_lines_app (l1 l2 : list str) :
  css (run init l1) = false ->
  postprocess_lines (l1 ++ l2) = postprocess_lines l1 ++ postprocess_lines l2.
Proof.
  intros Hc. unfold postprocess_lines. rewrite run_app.
  destruct (run init l1) as [o c] eqn:E. cbn [css] in Hc. subst c.
  rewrite run_prefix. reflexivity.
Qed.

Lemma postprocess_lines_app_witness :
  css (run init two_blocks_lines) = false
  /\ postprocess_lines (two_blocks_lines ++ more_lines)
     = postprocess_lines two_blocks_lines ++ postprocess_lines more_lines
  /\ postprocess_lines (two_blocks_lines ++ more_lines)
     = [of_string "<head>"; STYLE; STYLE_CLOSE;
        STYLE; STYLE_CLOSE; of_string "</head>"].
Proof.
  split; [reflexivity|]. split.
  - apply (postprocess_lines_app two_blocks_lines more_lines). reflexivity.
  - vm_compute; reflexivity.
Defined.

(** X4: a page without a line equal to the opening tag keeps its
    lines, whatever line boundaries separate them: when its last line is
    not empty, the output splits into the lines of the input. *)
Theorem passthrough_keeps_lines (data : str) :
  ~ In STYLE_OPEN (splitlines data) ->
  last (splitlines data) [LF] <> [] ->
  splitlines (postprocess_html data) = splitlines data.
Proof.
  intros Ho Hlast. unfold postprocess_html.
  rewrite postprocess_lines_clear by assumption.
  apply splitlines_join; [apply splitlines_break_free | exact Hlast].
Qed.

Lemma passthrough_keeps_lines_witness :
  postprocess_html form_feed_html <> form_feed_html
  /\ splitlines (postprocess_html form_feed_html) = splitlines form_feed_html.
Proof.
  split; [vm_compute; discriminate|].
  apply (passthrough_keeps_lines form_feed_html).
  - vm_compute; intuition discriminate.
  - vm_compute; discriminate.
Defined.

(** X5: however the first stage ends (with its list, with an error of
    [os.mkdir], or cut short), it has only added directories at
    mirrored paths to the tree: nothing is removed, and every path that
    named something before names the same thing after. *)
Theorem collector_only_adds_directories (fuel : nat) (w : world) :
  grows (tree w) (tree (snd (collector fuel w)))
  /\ forall p n,
       lookup (tree w) p = Some n ->
       lookup (tree (snd (collector fuel w))) p = Some n.
Proof.
  pose proof (steps_collector fuel w) as G. split; [exact G|].
  intros p n. now apply grows_lookup_some.
Qed.

(** X6: the list the first stage returns is the one of a plain walk
    over the tree as it was when the stage started: the directories the
    loop makes while the walk is under way do not change what the walk
    yields. *)
Theorem collector_is_plain_walk (fuel : nat) (w : world)
    (files : list str) (w' : world) :
  collector fuel w = (Ok files, w') ->
  walk_names fuel (tree w) (of_string "collections") [] = Some files.
Proof. intros H. now destruct (collector_names _ _ _ _ H). Qed.

Lemma collector_is_plain_walk_witness :
  fst (collector 3 (init_world tree_two_files))
  = Ok [of_string "collections/a.nim"; of_string "collections/b.nim"]
  /\ walk_names 3 tree_two_files (of_string "collections") []
     = Some [of_string "collections/a.nim"; of_string "collections/b.nim"].
Proof.
  split; [vm_compute; reflexivity|].
  apply (collector_is_plain_walk 3 (init_world tree_two_files) _
           (snd (collector 3 (init_world tree_two_files)))).
  vm_compute; reflexivity.
Defined.

(** X7: every path the first stage collects starts with the scanned
    root, ends with [.nim], and names an entry that is not a directory,
    in a directory reached from the scanned root through directories. *)
Theorem collector_lists_only_nim_files (fuel : nat) (w : world)
    (files : list str) (w' : world) :
  collector fuel w = (Ok files, w') -> Forall (nim_source (tree w)) files.
Proof. apply collector_sound. Qed.

Lemma collector_lists_only_nim_files_witness :
  fst (collector 3 (init_world tree_two_files))
  = Ok [of_string "collections/a.nim"; of_string "collections/b.nim"]
  /\ Forall (nim_source tree_two_files)
       [of_string "collections/a.nim"; of_string "collections/b.nim"].
Proof.
  split; [vm_compute; reflexivity|].
  apply (collector_lists_only_nim_files 3 (init_world tree_two_files) _
           (snd (collector 3 (init_world tree_two_files)))).
  vm_compute; reflexivity.
Defined.

(** X8: the first stage misses no source file: when it returns, every
    entry that is not a directory, whose name ends with [.nim], in a
    directory reached from the scanned root, has its path in the list. *)
Theorem collector_misses_no_nim_file (fuel : nat) (w : world)
    (files : list str) (w' : world) :
  collector fuel w = (Ok files, w') ->
  collected_below (tree w) source_root files.
Proof.
  intros H. destruct (collector_names _ _ _ _ H) as [Hn _].
  apply walk_names_complete in Hn.
  - rewrite components_collections in Hn. exact (proj2 Hn).
  - rewrite components_collections. apply source_root_in_source.
Qed.

Lemma collector_misses_no_nim_file_witness :
  fst (collector 4 (init_world tree_with_empty_dirs))
  = Ok [of_string "collections/a.nim"]
  /\ collected_below tree_with_empty_dirs source_root
       [of_string "collections/a.nim"].
Proof.
  split; [vm_compute; reflexivity|].
  apply (collector_misses_no_nim_file 4 (init_world tree_with_empty_dirs) _
           (snd (collector 4 (init_world tree_with_empty_dirs)))).
  vm_compute; reflexivity.
Defined.

(** X9: run again on the tree it has left, the first stage returns the
    same list, makes no directory and leaves the tree as it is. *)
Theorem collector_second_run (fuel : nat) (w : world) (files : list str)
    (w' : world) (l : list event) :
  collector fuel w = (Ok files, w') ->
  collector fuel (mkWorld (tree w') l) = (Ok files, mkWorld (tree w') l).
Proof.
  intros H. destruct (collector_names _ _ _ _ H) as [Hn [G [Hm Hroot]]].
  rewrite collector_eq, ensure_dir_eq. cbn [tree].
  rewrite (resolve_of_mirror (tree w') (of_string "doc/api") []
             components_doc_api).
  destruct (lookup (tree w') (mirror [])) as [x|] eqn:E;
    [|contradiction Hroot; reflexivity].
  apply (walk_again (tree w)); try assumption.
  rewrite components_collections. apply source_root_in_source.
Qed.

Lemma collector_second_run_witness :
  fst (collector 4 (init_world tree_with_empty_dirs))
  = Ok [of_string "collections/a.nim"]
  /\ tree (snd (collector 4 (init_world tree_with_empty_dirs)))
     <> tree_with_empty_dirs
  /\ collector 4
       (init_world (tree (snd (collector 4 (init_world tree_with_empty_dirs)))))
     = (Ok [of_string "collections/a.nim"],
        init_world (tree (snd (collector 4 (init_world tree_with_empty_dirs))))).
Proof.
  split; [vm_compute; reflexivity|]. split; [vm_compute; discriminate|].
  apply (collector_second_run 4 (init_world tree_with_empty_dirs)
           [of_string "collections/a.nim"]
           (snd (collector 4 (init_world tree_with_empty_dirs))) []).
  vm_compute; reflexivity.
Defined.

(** X10: the export opens the copy for writing before it reads the
    source.  When the mirrored directory is there and the source cannot
    be read (it is gone, or is a directory), the export raises, nothing
    is logged as written, and the copy is left empty: an older copy is
    lost.  Nothing else in the tree changes. *)
Theorem export_unreadable_source_empties_copy (path : str) (w : world) :
  node_at (tree w) (parent (mirror (components path))) = Some Dir ->
  lookup (tree w) (mirror (components path)) <> Some Dir ->
  (forall data, resolve (tree w) path <> Some (File data)) ->
  exists e w',
    export path w = (Raise e, w')
    /\ log w' = log w
    /\ lookup (tree w') (mirror (components path)) = Some (File [])
    /\ forall q, q <> mirror (components path) ->
                 lookup (tree w') q = lookup (tree w) q.
Proof.
  intros Hpar Hnd Hsrc.
  destruct (export_unreadable path w Hpar Hnd Hsrc) as [e He].
  exists e. eexists. split; [exact He|]. cbn [tree log].
  split; [reflexivity|]. split; [apply lookup_set_file_same|].
  intros q Hq. apply lookup_set_file_other. congruence.
Qed.

Lemma export_unreadable_source_empties_copy_witness :
  resolve tree_stale_copy (of_string "doc/api/collections/a.nim")
  = Some (File (of_string "old"))
  /\ fst (export (of_string "collections/a.nim") (init_world tree_stale_copy))
     = Raise FileNotFoundError
  /\ exists e w',
       export (of_string "collections/a.nim") (init_world tree_stale_copy)
       = (Raise e, w')
       /\ log w' = log (init_world tree_stale_copy)
       /\ lookup (tree w') (mirror (components (of_string "collections/a.nim")))
          = Some (File [])
       /\ forall q, q <> mirror (components (of_string "collections/a.nim")) ->
                    lookup (tree w') q
                    = lookup (tree (init_world tree_stale_copy)) q.
Proof.
  split; [vm_compute; reflexivity|]. split; [vm_compute; reflexivity|].
  apply (export_unreadable_source_empties_copy
           (of_string "collections/a.nim") (init_world tree_stale_copy)).
  - vm_compute; reflexivity.
  - vm_compute; discriminate.
  - intros data. vm_compute; discriminate.
Defined.

(** X11: whatever the tools do and wherever the run stops, the script
    itself only makes the directory [doc/api] and mirrors of paths of
    the source tree, only writes copies with the extension [.nim] at
    mirrors of paths of the source tree and pages with the extension
    [.html] below [doc/] and outside [doc/api/], and only calls the
    documentation compiler on such a copy and the converter on a markup
    file below [doc/].  On the tree, the files it opens for writing
    included: when the tools leave the entries outside the output paths
    as they are (the output paths being [doc/api], what lies below it,
    and the entries below [doc] with a name ending in [.html]), so does
    the whole run, whatever its outcome; a path outside the output
    paths names after the run what it named before. *)
Theorem main_touches_only_outputs run_process (fuel : nat) (t : fs) :
  Forall allowed (log (snd (main run_process fuel (init_world t))))
  /\ ((forall argv t0, kept_outside t0 (snd (run_process argv t0))) ->
      kept_outside t (tree (snd (main run_process fuel (init_world t))))
      /\ forall q,
           output_pathb q = false ->
           lookup (tree (snd (main run_process fuel (init_world t)))) q
           = lookup t q).
Proof.
  split.
  - destruct (emits_main_allowed run_process fuel (init_world t))
      as [evs [E F]].
    rewrite E. exact F.
  - intros Htools.
    pose proof (steps_main_kept run_process Htools fuel (init_world t)) as K.
    cbn [tree init_world] in K. split; [exact K|].
    intros q Hq. now apply kept_outside_lookup.
Qed.

Lemma main_touches_only_outputs_witness :
  Forall allowed (log (snd (main quiet_tool 3 (init_world tree_two_files))))
  /\ kept_outside tree_two_files
       (tree (snd (main quiet_tool 3 (init_world tree_two_files))))
  /\ lookup (tree (snd (main quiet_tool 3 (init_world tree_two_files))))
       [p_collections; of_string "a.nim"]
     = Some (File (of_string "A"))
  /\ tree (snd (main quiet_tool 3 (init_world tree_two_files)))
     <> tree_two_files.
Proof.
  destruct (main_touches_only_outputs quiet_tool 3 tree_two_files)
    as [Hlog Htree].
  destruct Htree as [Hkept Hlookup]; [intros argv t0; reflexivity|].
  split; [exact Hlog|]. split; [exact Hkept|].
  split; [|vm_compute; discriminate].
  rewrite Hlookup; reflexivity.
Defined.

(** X12: in every run the directories are made first and the pages are
    rewritten last: each [os.mkdir] comes before each write and each
    call of a tool, and each write of a page outside [doc/api/] comes
    after each other event. *)
Theorem main_stage_order run_process (fuel : nat) (t : fs) :
  ordered_before is_mkdir (fun e => ~ is_mkdir e)
    (log (snd (main run_process fuel (init_world t))))
  /\ ordered_before (fun e => ~ is_rewrite e) is_rewrite
       (log (snd (main run_process fuel (init_world t)))).
Proof.
  split.
  - destruct (emits_main_mkdir_first run_process fuel (init_world t))
      as [e1 [e2 [E [F1 F2]]]].
    cbn [log init_world app] in E. rewrite E. intros i j a b Hi Hj Ha Hb.
    apply (phases_ordered is_mkdir (fun e => ~ is_mkdir e) e1 e2 i j a b);
      try assumption.
    intros Hn. contradiction.
  - destruct (emits_main_rewrite_last run_process fuel (init_world t))
      as [e1 [e2 [E [F1 F2]]]].
    cbn [log init_world app] in E. rewrite E. intros i j a b Hi Hj Ha Hb.
    apply (phases_ordered (fun e => ~ is_rewrite e) is_rewrite e1 e2 i j a b);
      try assumption.
    intros Hn. contradiction.
Qed.

(** X13: the converter is only called once the first two stages are
    through: when the log of a run holds a call of the converter, the
    collector has returned its list and every file of the list has been
    exported and compiled without an error. *)
Theorem conversions_need_compiled_docs run_process (fuel : nat) (t : fs)
    (p : str) :
  In (ECall (nim_rst2html_argv p))
     (log (snd (main run_process fuel (init_world t)))) ->
  exists files w1 w2,
    collector fuel (init_world t) = (Ok files, w1)
    /\ for_each files (export_and_doc run_process) w1 = (Ok tt, w2).
Proof.
  unfold main, bind.
  destruct (emits_collector fuel (init_world t)) as [e1 [E1 F1]].
  destruct (collector fuel (init_world t)) as [[files|e] w1] eqn:Ec;
    cbn [snd log init_world app] in E1.
  - destruct (emits_stage2 run_process files w1) as [e2 [E2 F2]].
    destruct (for_each files (export_and_doc run_process) w1)
      as [[[]|e] w2] eqn:Es; cbn [snd] in E2.
    + intros _. exists files, w1, w2. split; [reflexivity | exact Es].
    + cbn [snd]. rewrite E2, E1. intros Hin. exfalso.
      rewrite Forall_forall in F1, F2.
      apply in_app_or in Hin as [Hin|Hin].
      * destruct (F1 _ Hin) as [q Hq]. discriminate Hq.
      * apply (F2 _ Hin). exists p. reflexivity.
  - cbn [snd]. rewrite E1. intros Hin. exfalso.
    rewrite Forall_forall in F1. destruct (F1 _ Hin) as [q Hq].
    discriminate Hq.
Qed.

Lemma conversions_need_compiled_docs_witness :
  In (ECall (nim_rst2html_argv (of_string "doc/index.rst")))
     (log (snd (main quiet_tool 3 (init_world tree_two_files))))
  /\ (exists files w1 w2,
         collector 3 (init_world tree_two_files) = (Ok files, w1)
         /\ for_each files (export_and_doc quiet_tool) w1 = (Ok tt, w2))
  /\ log (snd (main failing_doc_tool 3 (init_world tree_two_files)))
     = [EMkdir (of_string "doc/api"); EMkdir (of_string "doc/api/collections");
        EWrite (of_string "doc/api/collections/a.nim");
        ECall (nim_doc_argv (of_string "doc/api/collections/a.nim"))].
Proof.
  assert (H : In (ECall (nim_rst2html_argv (of_string "doc/index.rst")))
                 (log (snd (main quiet_tool 3 (init_world tree_two_files)))))
    by (vm_compute; in_list).
  split; [exact H|]. split; [|vm_compute; reflexivity].
  exact (conversions_need_compiled_docs quiet_tool 3 tree_two_files
           (of_string "doc/index.rst") H).
Defined.

(** X14: a page is only rewritten once the three earlier stages are
    through: when the log of a run holds a write to a path outside
    [doc/api/], the collector has returned, every collected file has
    been exported and compiled, and the walk that converts the markup
    files has ended without an error. *)
Theorem rewrites_need_conversions run_process (fuel : nat) (t : fs)
    (p : str) :
  In (EWrite p) (log (snd (main run_process fuel (init_world t)))) ->
  contains p (of_string "doc/api/") = false ->
  exists files w1 w2 w3,
    collector fuel (init_world t) = (Ok files, w1)
    /\ for_each files (export_and_doc run_process) w1 = (Ok tt, w2)
    /\ walk_for fuel (of_string "doc/") (rst_body run_process) tt w2
       = (Ok tt, w3).
Proof.
  intros Hin Hp. revert Hin. unfold main, bind.
  destruct (emits_collector fuel (init_world t)) as [e1 [E1 F1]].
  destruct (collector fuel (init_world t)) as [[files|e] w1] eqn:Ec;
    cbn [snd log init_world app] in E1.
  - destruct (emits_stage2_any run_process files w1) as [e2 [E2 F2]].
    destruct (for_each files (export_and_doc run_process) w1)
      as [[[]|e] w2] eqn:Es; cbn [snd] in E2.
    + destruct (emits_rst_calls run_process fuel w2) as [e3 [E3 F3]].
      destruct (walk_for fuel (of_string "doc/") (rst_body run_process) tt w2)
        as [[[]|e] w3] eqn:Er; cbn [snd] in E3.
      * intros _. exists files, w1, w2, w3.
        split; [reflexivity | split; [exact Es | exact Er]].
      * cbn [snd]. rewrite E3, E2, E1. intros Hin. exfalso.
        rewrite Forall_forall in F1, F2, F3.
        apply in_app_or in Hin as [Hin|Hin];
          [apply in_app_or in Hin as [Hin|Hin]|].
        -- destruct (F1 _ Hin) as [q Hq]. discriminate Hq.
        -- destruct (F2 _ Hin) as [[q Hq]|[q Hq]]; [|discriminate Hq].
           apply (export_is_not_rewrite q). exists p. split; [|exact Hp].
           symmetry. exact Hq.
        -- destruct (F3 _ Hin) as [q [Hq _]]. discriminate Hq.
    + cbn [snd]. rewrite E2, E1. intros Hin. exfalso.
      rewrite Forall_forall in F1, F2.
      apply in_app_or in Hin as [Hin|Hin].
      * destruct (F1 _ Hin) as [q Hq]. discriminate Hq.
      * destruct (F2 _ Hin) as [[q Hq]|[q Hq]]; [|discriminate Hq].
        apply (export_is_not_rewrite q). exists p. split; [|exact Hp].
        symmetry. exact Hq.
  - cbn [snd]. rewrite E1. intros Hin. exfalso.
    rewrite Forall_forall in F1. destruct (F1 _ Hin) as [q Hq].
    discriminate Hq.
Qed.

Lemma rewrites_need_conversions_witness :
  In (EWrite (of_string "doc/index.html"))
     (log (snd (main quiet_tool 3 (init_world tree_page))))
  /\ exists files w1 w2 w3,
       collector 3 (init_world tree_page) = (Ok files, w1)
       /\ for_each files (export_and_doc quiet_tool) w1 = (Ok tt, w2)
       /\ walk_for 3 (of_string "doc/") (rst_body quiet_tool) tt w2
          = (Ok tt, w3).
Proof.
  assert (H : In (EWrite (of_string "doc/index.html"))
                 (log (snd (main quiet_tool 3 (init_world tree_page)))))
    by (vm_compute; in_list).
  split; [exact H|].
  apply (rewrites_need_conversions quiet_tool 3 tree_page
           (of_string "doc/index.html") H).
  vm_compute; reflexivity.
Defined.

(** X15: what the last loop does in one directory.  When the body
    returns for a listing without a repeated name, every listed name
    whose path ends with [.html] and does not contain [doc/api/] named
    a file before, and names a file with the post-processed text of
    that file (as read in text mode) after; every other path of the
    tree names what it named before. *)
Theorem html_body_rewrites_pages (root : str) (dirs files : list str)
    (w w' : world) :
  Forall (fun n => valid_name n = true) files ->
  NoDup files ->
  html_body tt (root, dirs, files) w = (Ok tt, w') ->
  (forall name,
      In name files ->
      endswith (path_join root name) (of_string ".html") = true ->
      contains (path_join root name) (of_string "doc/api/") = false ->
      exists data,
        lookup (tree w) (components root ++ [name]) = Some (File data)
        /\ lookup (tree w') (components root ++ [name])
           = Some (File (postprocess_html (universal_newlines data))))
  /\ (forall q,
         (forall name,
             In name files ->
             endswith (path_join root name) (of_string ".html") = true ->
             contains (path_join root name) (of_string "doc/api/") = false ->
             q <> components root ++ [name]) ->
         lookup (tree w') q = lookup (tree w) q).
Proof.
  unfold html_body, for_each.
  revert w. induction files as [|name files IH]; intros w Hval Hnd Hrun.
  - cbn in Hrun. injection Hrun as <-. split; [intros ? []|reflexivity].
  - inversion Hval as [|? ? Hname Hval']; subst.
    inversion Hnd as [|? ? Hnot Hnd']; subst.
    cbn [foldM] in Hrun. unfold bind at 1 in Hrun.
    pose proof (components_join root name Hname) as Hc.
    assert (Hne : components (path_join root name) <> []).
    { rewrite Hc. intros E. now apply app_eq_nil in E as [_ E]. }
    destruct (endswith (path_join root name) (of_string ".html")
              && negb (contains (path_join root name) (of_string "doc/api/")))
      eqn:Epage.
    + match type of Hrun with
      | context [?m w] =>
          destruct (m w) as [[[]|e] w1] eqn:E1; [|discriminate Hrun]
      end.
      apply rewrite_step in E1; [|exact Hne].
      destruct E1 as [data [Hl Ht]]. rewrite Hc in Hl, Ht.
      destruct (IH w1 Hval' Hnd' Hrun) as [IH1 IH2]. split.
      * intros n [<-|Hin] He Hapi.
        -- exists data. split; [exact Hl|].
           rewrite IH2, Ht; [apply lookup_set_file_same|].
           intros n Hn _ _ E. apply app_inj_tail in E as [_ E].
           subst n. contradiction.
        -- destruct (IH1 n Hin He Hapi) as [d [Hd1 Hd2]]. exists d.
           split; [|exact Hd2]. rewrite Ht in Hd1.
           rewrite !lookup_set_file_other in Hd1; [exact Hd1| |];
             intros E; apply app_inj_tail in E as [_ E]; subst n;
             contradiction.
      * intros q Hq. rewrite IH2.
        -- apply andb_true_iff in Epage as [He Hapi].
           apply negb_true_iff in Hapi.
           assert (Hqn : components root ++ [name] <> q).
           { intros E. symmetry in E. revert E.
             apply Hq; [now left | exact He | exact Hapi]. }
           rewrite Ht, !lookup_set_file_other by exact Hqn. reflexivity.
        -- intros n Hin. apply Hq. now right.
    + cbn [ret] in Hrun. unfold ret in Hrun.
      destruct (IH w Hval' Hnd' Hrun) as [IH1 IH2]. split.
      * intros n [<-|Hin] He Hapi.
        -- rewrite He, Hapi in Epage. discriminate Epage.
        -- now apply IH1.
      * intros q Hq. apply IH2. intros n Hin. apply Hq. now right.
Qed.

Lemma html_body_rewrites_pages_witness :
  exists data,
    lookup (tree (init_world tree_page))
      (components (of_string "doc/") ++ [of_string "index.html"])
    = Some (File data)
    /\ lookup
         (tree (snd (html_body tt
                       (of_string "doc/", [], [of_string "index.html"])
                       (init_world tree_page))))
         (components (of_string "doc/") ++ [of_string "index.html"])
       = Some (File (postprocess_html (universal_newlines data))).
Proof.
  destruct (html_body_rewrites_pages (of_string "doc/") []
              [of_string "index.html"] (init_world tree_page)
              (snd (html_body tt
                      (of_string "doc/", [], [of_string "index.html"])
                      (init_world tree_page)))) as [H _].
  - repeat constructor.
  - repeat constructor. intros [].
  - vm_compute; reflexivity.
  - apply (H (of_string "index.html")).
    + left; reflexivity.
    + vm_compute; reflexivity.
    + vm_compute; reflexivity.
Defined.

(** X16: however the last walk ends, it has made nothing and removed
    nothing: every path of the tree names what it named before, or a
    regular file with another text where a regular file was. *)
Theorem html_walk_only_replaces_contents (fuel : nat) (w : world) :
  only_contents (tree w)
    (tree (snd (walk_for fuel (of_string "doc/") html_body tt w))).
Proof.
  revert w.
  change (steps only_contents (walk_for fuel (of_string "doc/") html_body tt)).
  apply steps_walk_for;
    [exact only_contents_refl | exact only_contents_trans |].
  intros [] [[root dirs] files]. unfold html_body, for_each.
  apply steps_foldM; [exact only_contents_refl | exact only_contents_trans |].
  intros [] name _.
  destruct (endswith (path_join root name) (of_string ".html")
            && negb (contains (path_join root name) (of_string "doc/api/"))).
  - apply steps_rewrite.
  - apply steps_ret. exact only_contents_refl.
Qed.

End StageProperties.
